(** * Tic Tac Toe (React front end): game logic and controller

    A shallow embedding of [src/tic_tac_toe_frontend/src/App.js]:
    the board evaluator [calculateWinner], the helper [emptyIndices],
    the move advisor [computeAIMove], and the [App] component with its
    state, event handlers and effects.

    Conventions.
    - A board is a JavaScript array, modelled as a list of cells.  A cell
      is [Null], a mark, or [Undefined]: what a read yields past the end of
      the array or at a hole left by a write past the end.
    - [Math.random()] is a rational number in the half-open unit interval,
      given as a fraction [numer / denom] with [numer < denom]; the product
      with a length and [Math.floor] are computed exactly.
    - Score counters are natural numbers.
    - The component is a state machine.  An event handler or a timeout
      callback requests state updates; React applies them together,
      renders, and runs each effect whose dependency list changed since
      the effect last ran, the cleanup of the previous run first; updates
      requested by an effect lead to another render.  An event is handled
      to the end before the next one arrives.  The host keeps the pending
      timeouts in a table under fresh identifiers; a timeout can fire at
      any moment while it is in the table. *)

From Stdlib Require Import String List Arith Bool Lia.
Import ListNotations.

(* ================================================================== *)
(** ** Cells and arrays *)

Inductive mark : Type := X | O.

Inductive cell : Type :=
| Undefined
| Null
| Mk (m : mark).

Definition mark_eqb (a b : mark) : bool :=
  match a, b with
  | X, X | O, O => true
  | _, _ => false
  end.

(** JavaScript's [===] on the values a cell can hold. *)
Definition cell_eqb (a b : cell) : bool :=
  match a, b with
  | Undefined, Undefined => true
  | Null, Null => true
  | Mk m, Mk n => mark_eqb m n
  | _, _ => false
  end.

(** Truthiness: a non-empty string is truthy, [null] and [undefined]
    are falsy. *)
Definition truthy (c : cell) : bool :=
  match c with
  | Mk _ => true
  | _ => false
  end.

Definition Board := list cell.

(** [squares[i]] *)
Definition get (squares : Board) (i : nat) : cell := nth i squares Undefined.

(** [copy[i] = v]: replaces the element in range; past the end the array
    grows and the skipped positions are holes. *)
Fixpoint array_set (a : Board) (i : nat) (v : cell) : Board :=
  match a, i with
  | _ :: rest, 0 => v :: rest
  | x :: rest, S j => x :: array_set rest j v
  | [], 0 => [v]
  | [], S j => Undefined :: array_set [] j v
  end.

(** [Array(9).fill(null)] *)
Definition emptyBoard : Board := repeat Null 9.

(* ================================================================== *)
(** ** Board evaluator *)

Definition Line := (nat * nat * nat)%type.

Definition LINES : list Line :=
  [ (0, 1, 2); (3, 4, 5); (6, 7, 8);   (* rows *)
    (0, 3, 6); (1, 4, 7); (2, 5, 8);   (* cols *)
    (0, 4, 8); (2, 4, 6) ].            (* diags *)

Record Outcome : Type := mkOutcome { winner : cell; line : list nat }.

(** The test of the loop body:
    [squares[a] && squares[a] === squares[b] && squares[a] === squares[c]] *)
Definition lineTest (squares : Board) (l : Line) : bool :=
  let '(a, b, c) := l in
  truthy (get squares a)
  && cell_eqb (get squares a) (get squares b)
  && cell_eqb (get squares a) (get squares c).

(** The [for ... of] loop over a list of lines, with its early return. *)
Fixpoint scanLines (ls : list Line) (squares : Board) : Outcome :=
  match ls with
  | [] => mkOutcome Null []
  | (a, b, c) :: rest =>
      if lineTest squares (a, b, c)
      then mkOutcome (get squares a) [a; b; c]
      else scanLines rest squares
  end.

Definition calculateWinner (squares : Board) : Outcome :=
  scanLines LINES squares.

(* ================================================================== *)
(** ** Empty cells *)

(** [squares.map((v, idx) => (v ? null : idx)).filter((v) => v !== null)].
    [map] keeps a hole a hole and [filter] drops holes, so the indices that
    survive are those of the [Null] cells (an array built by the program
    never stores [undefined] itself). *)
Fixpoint emptyFrom (idx : nat) (squares : Board) : list nat :=
  match squares with
  | [] => []
  | Null :: rest => idx :: emptyFrom (S idx) rest
  | _ :: rest => emptyFrom (S idx) rest
  end.

Definition emptyIndices (squares : Board) : list nat := emptyFrom 0 squares.

(* ================================================================== *)
(** ** Move advisor *)

(** A result of [Math.random()]. *)
Record draw : Type := mkDraw {
  numer : nat;
  denom : nat;
  in_unit : (numer <? denom) = true
}.

(** [Math.floor(Math.random() * n)] *)
Definition floorTimes (r : draw) (n : nat) : nat := (numer r * n) / denom r.

(** [available.includes(i)] *)
Definition includes (l : list nat) (i : nat) : bool := existsb (Nat.eqb i) l.

(** The local closure [tryMove] of [computeAIMove]. *)
Definition tryMove (squares : Board) (idx : nat) (m : mark) : bool :=
  let copy := array_set squares idx (Mk m) in
  cell_eqb (winner (calculateWinner copy)) (Mk m).

(** The [return] statement that produced the result. *)
Inductive tier : Type :=
| NoMove      (* available.length === 0 *)
| Win         (* 1 *)
| Block       (* 2 *)
| Center      (* 3 *)
| Corner      (* 4 *)
| Side        (* 5 *)
| Fallback.   (* return available[0] *)

(** [computeAIMove], returning with the move the [return] that was taken.
    [None] is [null].  Reading [corners], [sides] or [available] at an
    index past the end would yield [undefined]; the reads are in range
    ([floorTimes_lt], [computeAIMove_available]). *)
Definition computeAIMove_traced
    (squares : Board) (aiMark humanMark : mark) (r : draw) : tier * option nat :=
  let available := emptyIndices squares in
  if length available =? 0 then (NoMove, None) else
  match find (fun idx => tryMove squares idx aiMark) available with
  | Some idx => (Win, Some idx)
  | None =>
  match find (fun idx => tryMove squares idx humanMark) available with
  | Some idx => (Block, Some idx)
  | None =>
      if includes available 4 then (Center, Some 4) else
      let corners := filter (includes available) [0; 2; 6; 8] in
      if negb (length corners =? 0)
      then (Corner, nth_error corners (floorTimes r (length corners))) else
      let sides := filter (includes available) [1; 3; 5; 7] in
      if negb (length sides =? 0)
      then (Side, nth_error sides (floorTimes r (length sides))) else
      (Fallback, nth_error available 0)
  end
  end.

Definition computeAIMove
    (squares : Board) (aiMark humanMark : mark) (r : draw) : option nat :=
  snd (computeAIMove_traced squares aiMark humanMark r).

(* ================================================================== *)
(** ** The [App] component: state *)

Inductive Mode : Type := HUMAN_HUMAN | HUMAN_AI.

Definition Mode_eqb (a b : Mode) : bool :=
  match a, b with
  | HUMAN_HUMAN, HUMAN_HUMAN | HUMAN_AI, HUMAN_AI => true
  | _, _ => false
  end.

Record Scores : Type := mkScores { scoreX : nat; scoreO : nat; scoreDraws : nat }.

(** The values held by the [useState] hooks ([theme] is constant and only
    feeds the style sheet).  [boardId] is the identity of the array stored
    in [board]: every [setBoard] of the program stores a newly built array,
    and the dependency lists compare arrays by identity. *)
Record Session : Type := mkSession {
  mode : Mode;
  board : Board;
  boardId : nat;
  xIsNext : bool;
  scores : Scores;
  statusMessage : string;
  gameActive : bool
}.

(** The calls of the state setters. *)
Inductive update : Type :=
| setMode (m : Mode)
| setBoard (b : Board)
| setXIsNext (x : bool)
| setScores (f : Scores -> Scores)
| setStatusMessage (msg : string)
| setGameActive (g : bool).

Definition applyUpdate (s : Session) (u : update) : Session :=
  match u with
  | setMode m =>
      mkSession m (board s) (boardId s) (xIsNext s) (scores s) (statusMessage s) (gameActive s)
  | setBoard b =>
      mkSession (mode s) b (S (boardId s)) (xIsNext s) (scores s) (statusMessage s) (gameActive s)
  | setXIsNext x =>
      mkSession (mode s) (board s) (boardId s) x (scores s) (statusMessage s) (gameActive s)
  | setScores f =>
      mkSession (mode s) (board s) (boardId s) (xIsNext s) (f (scores s)) (statusMessage s) (gameActive s)
  | setStatusMessage msg =>
      mkSession (mode s) (board s) (boardId s) (xIsNext s) (scores s) msg (gameActive s)
  | setGameActive g =>
      mkSession (mode s) (board s) (boardId s) (xIsNext s) (scores s) (statusMessage s) g
  end.

Definition applyUpdates (s : Session) (ups : list update) : Session :=
  fold_left applyUpdate ups s.

(** Values computed on every render. *)
Definition winnerOf (s : Session) : cell := winner (calculateWinner (board s)).
Definition lineOf (s : Session) : list nat := line (calculateWinner (board s)).
Definition movesLeft (s : Session) : nat := length (emptyIndices (board s)).
Definition currentPlayer (s : Session) : mark := if xIsNext s then X else O.
Definition aiMark : mark := O.
Definition canPlay (s : Session) : bool := gameActive s && negb (truthy (winnerOf s)).

Definition markName (m : mark) : string :=
  match m with X => "X"%string | O => "O"%string end.

(** [{ ...s, [winner]: s[winner] + 1 }] *)
Definition bumpMark (w : mark) (s : Scores) : Scores :=
  match w with
  | X => mkScores (scoreX s + 1) (scoreO s) (scoreDraws s)
  | O => mkScores (scoreX s) (scoreO s + 1) (scoreDraws s)
  end.

(** [{ ...s, draws: s.draws + 1 }] *)
Definition bumpDraws (s : Scores) : Scores :=
  mkScores (scoreX s) (scoreO s) (scoreDraws s + 1).

(* ================================================================== *)
(** ** The [App] component: effects *)

(** The effect with dependencies [[winner, movesLeft, currentPlayer]]. *)
Definition statusEffect (s : Session) : list update :=
  match winnerOf s with
  | Mk w =>
      [ setStatusMessage ("Winner: " ++ markName w)%string;
        setGameActive false;
        setScores (bumpMark w) ]
  | _ =>
      if movesLeft s =? 0
      then [ setStatusMessage "Draw!"%string; setGameActive false; setScores bumpDraws ]
      else [ setStatusMessage ("Turn: " ++ markName (currentPlayer s))%string ]
  end.

Definition StatusDeps := (cell * nat * mark)%type.

Definition statusDepsOf (s : Session) : StatusDeps :=
  (winnerOf s, movesLeft s, currentPlayer s).

Definition StatusDeps_eqb (d e : StatusDeps) : bool :=
  let '(w1, n1, p1) := d in
  let '(w2, n2, p2) := e in
  cell_eqb w1 w2 && (n1 =? n2) && mark_eqb p1 p2.

(** The effect with dependencies
    [[mode, xIsNext, board, aiMark, winner, gameActive]] ([aiMark] is a
    constant): whether its body reaches [setTimeout]. *)
Definition aiEffectArms (s : Session) : bool :=
  if negb (gameActive s) || truthy (winnerOf s) then false
  else Mode_eqb (mode s) HUMAN_AI && negb (xIsNext s).

Definition AiDeps := (Mode * bool * nat * cell * bool)%type.

Definition aiDepsOf (s : Session) : AiDeps :=
  (mode s, xIsNext s, boardId s, winnerOf s, gameActive s).

Definition AiDeps_eqb (d e : AiDeps) : bool :=
  let '(m1, x1, b1, w1, g1) := d in
  let '(m2, x2, b2, w2, g2) := e in
  Mode_eqb m1 m2 && Bool.eqb x1 x2 && (b1 =? b2) && cell_eqb w1 w2 && Bool.eqb g1 g2.

(** An effect runs after a render when it has not run yet or one of its
    dependencies differs from the value of the previous run. *)
Definition depsChanged {D : Type} (eqb : D -> D -> bool) (old : option D) (new : D) : bool :=
  match old with
  | None => true
  | Some d => negb (eqb d new)
  end.

(** The component together with what React and the host keep for it: the
    dependencies of the last run of each effect, the cleanup returned by
    the last run of the advisor effect (the identifier it passes to
    [clearTimeout]), and the host's pending timeouts, each with the board
    its callback closed over. *)
Record State : Type := mkState {
  session : Session;
  statusDeps : option StatusDeps;
  aiDeps : option AiDeps;
  aiCleanup : option nat;
  timers : list (nat * Board);
  nextTimer : nat
}.

Definition withSession (st : State) (s : Session) : State :=
  mkState s (statusDeps st) (aiDeps st) (aiCleanup st) (timers st) (nextTimer st).

Definition clearTimeout (id : nat) (ts : list (nat * Board)) : list (nat * Board) :=
  filter (fun t => negb (fst t =? id)) ts.

Fixpoint lookupTimer (id : nat) (ts : list (nat * Board)) : option Board :=
  match ts with
  | [] => None
  | (k, b) :: rest => if k =? id then Some b else lookupTimer id rest
  end.

(** [() => clearTimeout(timer)] of the previous run, when there is one. *)
Definition runAiCleanup (st : State) : State :=
  match aiCleanup st with
  | Some id =>
      mkState (session st) (statusDeps st) (aiDeps st) None
              (clearTimeout id (timers st)) (nextTimer st)
  | None => st
  end.

(** The body of the advisor effect. *)
Definition runAiEffect (st : State) : State :=
  if aiEffectArms (session st)
  then mkState (session st) (statusDeps st) (aiDeps st) (Some (nextTimer st))
               (timers st ++ [(nextTimer st, board (session st))]) (S (nextTimer st))
  else mkState (session st) (statusDeps st) (aiDeps st) None
               (timers st) (nextTimer st).

Definition statusRuns (st : State) : bool :=
  depsChanged StatusDeps_eqb (statusDeps st) (statusDepsOf (session st)).

Definition aiRuns (st : State) : bool :=
  depsChanged AiDeps_eqb (aiDeps st) (aiDepsOf (session st)).

(** The advisor effect after a render: when a dependency changed, the
    cleanup of its previous run and then its body. *)
Definition aiPhase (st : State) : State :=
  if aiRuns st then runAiEffect (runAiCleanup st) else st.

(** The effect phase after one render: the effects whose dependencies
    changed run with the values of this render; the state updates they
    request are returned and take effect with the next render. *)
Definition commit (st : State) : State * list update :=
  let s := session st in
  let ups := if statusRuns st then statusEffect s else [] in
  let st1 := aiPhase st in
  (mkState s (Some (statusDepsOf s)) (Some (aiDepsOf s))
           (aiCleanup st1) (timers st1) (nextTimer st1),
   ups).

(** Render and run effects until no effect requests an update. *)
Fixpoint settle (fuel : nat) (st : State) : State :=
  match fuel with
  | 0 => st
  | S n =>
      let '(st', ups) := commit st in
      match ups with
      | [] => st'
      | _ => settle n (withSession st' (applyUpdates (session st') ups))
      end
  end.

(** Two rounds are enough, see [settle_fuel]. *)
Definition renders : nat := 2.

(* ================================================================== *)
(** ** The [App] component: handlers *)

Definition handleClick (s : Session) (i : nat) : list update :=
  if negb (canPlay s) then [] else
  if truthy (get (board s) i) then [] else
  if Mode_eqb (mode s) HUMAN_AI && negb (xIsNext s) then [] else
  [ setBoard (array_set (board s) i (Mk (currentPlayer s)));
    setXIsNext (negb (xIsNext s)) ].

Definition restartGame (hard : bool) : list update :=
  [ setBoard emptyBoard;
    setXIsNext true;
    setGameActive true;
    setStatusMessage "New round. Turn: X"%string ]
  ++ (if hard then [ setScores (fun _ => mkScores 0 0 0) ] else []).

Definition handleModeChange (newMode : Mode) : list update :=
  setMode newMode :: restartGame false.

Definition startNewGame : list update := restartGame true.

(** The callback given to [setTimeout]; [captured] is the board of the
    render in which the effect ran. *)
Definition aiTimeout (captured : Board) (r : draw) : list update :=
  match computeAIMove captured aiMark X r with
  | Some idx =>
      if cell_eqb (get captured idx) Null
      then [ setBoard (array_set captured idx (Mk aiMark)); setXIsNext true ]
      else []
  | None => []
  end.

(** What can happen to the mounted component: a click on a cell, on
    "Restart Round", on "New Game", on a mode button, or a timeout of the
    host firing, with the random number its callback will draw. *)
Inductive event : Type :=
| Click (i : nat)
| RestartRound
| NewGame
| ModeChange (m : Mode)
| Timeout (id : nat) (r : draw).

(** A handler that requests no update causes no render. *)
Definition dispatch (st : State) (ups : list update) : State :=
  match ups with
  | [] => st
  | _ => settle renders (withSession st (applyUpdates (session st) ups))
  end.

Definition step (st : State) (e : event) : State :=
  match e with
  | Click i => dispatch st (handleClick (session st) i)
  | RestartRound => dispatch st (restartGame false)
  | NewGame => dispatch st startNewGame
  | ModeChange m => dispatch st (handleModeChange m)
  | Timeout id r =>
      match lookupTimer id (timers st) with
      | None => st
      | Some captured =>
          dispatch (mkState (session st) (statusDeps st) (aiDeps st) (aiCleanup st)
                            (clearTimeout id (timers st)) (nextTimer st))
                   (aiTimeout captured r)
      end
  end.

Definition initialSession : Session :=
  mkSession HUMAN_HUMAN emptyBoard 0 true (mkScores 0 0 0)
            "Choose a mode and start playing!"%string true.

(** The component after its first render and effects. *)
Definition mount : State :=
  settle renders (mkState initialSession None None None [] 0).

Inductive reachable : State -> Prop :=
| reach_mount : reachable mount
| reach_step st e : reachable st -> reachable (step st e).

Inductive reachableFrom (st : State) : State -> Prop :=
| from_here : reachableFrom st st
| from_step st' e : reachableFrom st st' -> reachableFrom st (step st' e).

(** The state after a sequence of events. *)
Definition run (st : State) (es : list event) : State := fold_left step es st.

Definition isReset (e : event) : bool :=
  match e with
  | RestartRound | NewGame | ModeChange _ => true
  | _ => false
  end.

(** Two draws and the boards of the examples. *)
Definition half : draw := mkDraw 1 2 eq_refl.
Definition almostOne : draw := mkDraw 99 100 eq_refl.

Definition spec_example_board : Board :=
  [Mk X; Mk X; Null;  Mk O; Mk O; Null;  Null; Null; Null].

Definition decided_board : Board :=
  [Mk X; Mk X; Mk X;  Null; Null; Null;  Mk O; Mk O; Null].

(* ================================================================== *)
(** ** Properties stated in the words of the specification *)

(** The three cells of line [l] hold mark [m]. *)
Definition holds (squares : Board) (l : Line) (m : mark) : Prop :=
  let '(a, b, c) := l in
  get squares a = Mk m /\ get squares b = Mk m /\ get squares c = Mk m.

(** Line [l] has three non-empty identical cells. *)
Definition complete (squares : Board) (l : Line) : Prop :=
  exists m, holds squares l m.

Definition indices (l : Line) : list nat :=
  let '(a, b, c) := l in [a; b; c].

(** [l] is the first complete line of [ls], in the order of [ls]. *)
Definition firstComplete (ls : list Line) (squares : Board) (l : Line) : Prop :=
  exists pre post,
    ls = pre ++ l :: post
    /\ (forall l', In l' pre -> ~ complete squares l')
    /\ complete squares l.

Definition rows : list Line := map (fun r => (3 * r, 3 * r + 1, 3 * r + 2)) [0; 1; 2].
Definition cols : list Line := map (fun c => (c, c + 3, c + 6)) [0; 1; 2].
Definition diags : list Line := [ (0, 4, 8); (2, 4, 6) ].

(** Cell [i] is empty. *)
Definition isEmpty (squares : Board) (i : nat) : Prop := get squares i = Null.

(** The board has no empty cell. *)
Definition full (squares : Board) : Prop := forall i, ~ isEmpty squares i.

(** Filling the empty cell [i] with [m] completes a line for [m]: some
    line through [i] then holds [m] in its three cells. *)
Definition completesLine (squares : Board) (i : nat) (m : mark) : Prop :=
  isEmpty squares i
  /\ exists l, In l LINES /\ In i (indices l)
               /\ holds (array_set squares i (Mk m)) l m.

(** No line of the board is complete yet. *)
Definition undecided (squares : Board) : Prop :=
  forall l, In l LINES -> ~ complete squares l.

(** No available cell passes the check that tiers 1 and 2 make, the
    closure [tryMove], for mark [m]. *)
Definition noneWins (squares : Board) (m : mark) : Prop :=
  forall i, In i (emptyIndices squares) -> tryMove squares i m = false.


(** The order of tiers 1 and 2: when some empty cell completes a line
    for the advisor's mark the result is such a cell; otherwise, when some
    empty cell completes a line for the opponent's mark, the result is such
    a cell. *)
Definition advisorPriority
    (squares : Board) (ai hu : mark) (res : option nat) : Prop :=
  ((exists i, completesLine squares i ai) ->
   exists j, res = Some j /\ completesLine squares j ai)
  /\ (~ (exists i, completesLine squares i ai) ->
      (exists i, completesLine squares i hu) ->
      exists j, res = Some j /\ completesLine squares j hu).

(** [i] is the first empty cell in index order. *)
Definition firstEmpty (squares : Board) (i : nat) : Prop :=
  isEmpty squares i /\ forall j, j < i -> ~ isEmpty squares j.

(** The round is decided: a line is complete or no cell is empty. *)
Definition roundOver (s : Session) : bool :=
  truthy (winnerOf s) || (movesLeft s =? 0).

(** The session once the updates of the status effect are applied. *)
Definition afterStatus (s : Session) : Session :=
  applyUpdates s (statusEffect s).




(** Both effects have run with the values of the current render. *)
Definition committed (st : State) : Prop :=
  statusDeps st = Some (statusDepsOf (session st))
  /\ aiDeps st = Some (aiDepsOf (session st)).

(** Every pending timeout is the one the advisor effect owns, closes over
    the current board, and was set in a render in which it was the
    advisor's turn. *)
Definition timersOk (st : State) : Prop :=
  forall id b, In (id, b) (timers st) ->
    aiCleanup st = Some id
    /\ b = board (session st)
    /\ aiEffectArms (session st) = true
    /\ id < nextTimer st.

(** Every pending timeout is the one the cleanup of the advisor effect
    will clear. *)
Definition owned (st : State) : Prop :=
  forall id b, In (id, b) (timers st) -> aiCleanup st = Some id.

Definition Inv (st : State) : Prop :=
  committed st
  /\ gameActive (session st) = negb (roundOver (session st))
  /\ timersOk st.

(** Timeouts of [st'] are timeouts of [st] or were set after [st]. *)
Definition timersGrow (st st' : State) : Prop :=
  nextTimer st <= nextTimer st'
  /\ forall id b, In (id, b) (timers st') ->
       In (id, b) (timers st) \/ nextTimer st <= id.

(** The identifier was handed out and its timeout is no longer pending. *)
Definition spent (id : nat) (st : State) : Prop :=
  id < nextTimer st /\ forall b, ~ In (id, b) (timers st).

(* ================================================================== *)
(** ** Further parts of the component and of its description *)

(** Two states used in examples: [X] one move from a win, and the
    advisor about to answer the first move. *)
Definition beforeWin : State :=
  run mount [Click 0; Click 3; Click 1; Click 4].

Definition advisorToMove : State :=
  run mount [ModeChange HUMAN_AI; Click 0].

(** Every element is below all the later ones. *)
Fixpoint increasing (l : list nat) : Prop :=
  match l with
  | [] => True
  | a :: rest => (forall b, In b rest -> a < b) /\ increasing rest
  end.

(** [highlighted] of [App]: [line.includes(idx)]. *)
Definition highlighted (s : Session) (idx : nat) : bool :=
  includes (lineOf s) idx.

(** The text the status effect writes for a session. *)
Definition expectedStatus (s : Session) : string :=
  match winnerOf s with
  | Mk w => ("Winner: " ++ markName w)%string
  | _ =>
      if movesLeft s =? 0 then "Draw!"%string
      else ("Turn: " ++ markName (currentPlayer s))%string
  end.

(** How many cells of the board hold mark [m]. *)
Definition countMark (m : mark) (b : Board) : nat :=
  length (filter (cell_eqb (Mk m)) b).

(** The session that the placement of the active mark on cell [i]
    requests: the two setter calls at the end of [handleClick]. *)
Definition moved (s : Session) (i : nat) : Session :=
  applyUpdates s
    [ setBoard (array_set (board s) i (Mk (currentPlayer s)));
      setXIsNext (negb (xIsNext s)) ].

(** The setter calls of the three resetting events. *)
Definition resetUpdates (e : event) : list update :=
  match e with
  | RestartRound => restartGame false
  | NewGame => startNewGame
  | ModeChange m => handleModeChange m
  | _ => []
  end.

(** When the advisor effect would set a timeout for the session, one
    timeout is pending, with the current board. *)
Definition scheduled (st : State) : Prop :=
  aiEffectArms (session st) = true ->
  exists id, timers st = [(id, board (session st))].

(** The grid shows one button per cell of the board ([board.map]): a click
    comes with the index of a cell of the array. *)
Definition offered (st : State) (e : event) : Prop :=
  match e with
  | Click i => i < length (board (session st))
  | _ => True
  end.

Inductive reachableUI : State -> Prop :=
| ui_mount : reachableUI mount
| ui_step st e : reachableUI st -> offered st e -> reachableUI (step st e).

(* ================================================================== *)
(** ** Arrays *)

Lemma mark_eqb_eq a b : mark_eqb a b = true <-> a = b.
Proof. destruct a, b; simpl; split; congruence. Qed.

Lemma mark_eqb_refl a : mark_eqb a a = true.
Proof. now destruct a. Qed.

Lemma cell_eqb_eq a b : cell_eqb a b = true <-> a = b.
Proof.
  destruct a as [| |m], b as [| |n]; simpl; try (split; congruence).
  rewrite mark_eqb_eq. split; congruence.
Qed.

Lemma cell_eqb_refl a : cell_eqb a a = true.
Proof. now apply cell_eqb_eq. Qed.

Lemma truthy_Mk c : truthy c = true <-> exists m, c = Mk m.
Proof.
  destruct c; simpl; split; try congruence; eauto.
  all: intros [m Hm]; discriminate.
Qed.

Lemma get_nil i : get [] i = Undefined.
Proof. now destruct i. Qed.

Lemma get_array_set_eq a i v : get (array_set a i v) i = v.
Proof.
  revert a. induction i as [|i IH]; intros [|x a]; simpl; auto.
  - apply (IH []).
  - apply IH.
Qed.

Lemma get_array_set_ne a i j v : i <> j -> get (array_set a i v) j = get a j.
Proof.
  revert a j. induction i as [|i IH]; intros [|x a] [|j] H; try congruence.
  - now destruct j.
  - reflexivity.
  - reflexivity.
  - change (get (array_set [] i v) j = get [] (S j)).
    rewrite IH by congruence. now rewrite !get_nil.
  - reflexivity.
  - change (get (array_set a i v) j = get a j). apply IH. congruence.
Qed.

Lemma In_emptyFrom squares : forall k i,
  In i (emptyFrom k squares) <-> k <= i /\ get squares (i - k) = Null.
Proof.
  induction squares as [|c rest IH]; intros k i; simpl.
  - rewrite get_nil. split; [tauto | intros [_ H]; discriminate].
  - assert (Hrest : In i (emptyFrom (S k) rest)
                    <-> k <= i /\ i <> k /\ get (c :: rest) (i - k) = Null).
    { rewrite IH. unfold get. split.
      - intros [Hle H]. repeat split; try lia.
        replace (i - k) with (S (i - S k)) by lia. exact H.
      - intros (Hle & Hne & H). split; [lia|].
        replace (i - k) with (S (i - S k)) in H by lia. exact H. }
    destruct c; simpl; rewrite Hrest.
    + split; [tauto|]. intros [Hle H]. repeat split; auto.
      intros ->. rewrite Nat.sub_diag in H. discriminate.
    + split.
      * intros [<- | H]; [|tauto]. split; [lia|]. now rewrite Nat.sub_diag.
      * intros [Hle H]. destruct (Nat.eq_dec k i); [now left | right]. auto.
    + split; [tauto|]. intros [Hle H]. repeat split; auto.
      intros ->. rewrite Nat.sub_diag in H. discriminate.
Qed.

Lemma In_emptyIndices squares i : In i (emptyIndices squares) <-> isEmpty squares i.
Proof.
  unfold emptyIndices, isEmpty. rewrite In_emptyFrom, Nat.sub_0_r.
  split; [tauto | intros H; split; [lia | exact H]].
Qed.

Lemma emptyIndices_nil squares : emptyIndices squares = [] <-> full squares.
Proof.
  unfold full. split.
  - intros H i Hi. apply In_emptyIndices in Hi. rewrite H in Hi. contradiction.
  - intros H. destruct (emptyIndices squares) as [|i l] eqn:E; [reflexivity|].
    exfalso. apply (H i), In_emptyIndices. rewrite E. now left.
Qed.

(** The indices come out in increasing order, so the head is the least. *)
Lemma emptyFrom_head squares : forall k i l,
  emptyFrom k squares = i :: l ->
  forall j, In j (emptyFrom k squares) -> i <= j.
Proof.
  induction squares as [|c rest IH]; intros k i l E j Hj; simpl in *.
  - contradiction.
  - destruct c; try (now apply (IH _ _ _ E)).
    inversion E; subst. destruct Hj as [<- | Hj]; [lia|].
    apply In_emptyFrom in Hj. lia.
Qed.

Lemma emptyIndices_head squares i l :
  emptyIndices squares = i :: l -> firstEmpty squares i.
Proof.
  intros E. split.
  - apply In_emptyIndices. rewrite E. now left.
  - intros j Hj Hempty. apply In_emptyIndices in Hempty.
    pose proof (emptyFrom_head _ _ _ _ E j Hempty). lia.
Qed.

Lemma includes_In l i : includes l i = true <-> In i l.
Proof.
  unfold includes. rewrite existsb_exists. split.
  - intros (x & Hx & E). apply Nat.eqb_eq in E. now subst.
  - intros H. exists i. split; [exact H | apply Nat.eqb_refl].
Qed.

Lemma floorTimes_lt r n : 0 < n -> floorTimes r n < n.
Proof.
  intros Hn. unfold floorTimes.
  pose proof (in_unit r) as H. apply Nat.ltb_lt in H.
  apply Nat.Div0.div_lt_upper_bound. nia.
Qed.

(* ================================================================== *)
(** ** The evaluator finds the first complete line *)

Lemma lineTest_holds squares a b c :
  lineTest squares (a, b, c) = true ->
  exists m, get squares a = Mk m /\ holds squares (a, b, c) m.
Proof.
  unfold lineTest, holds. rewrite !andb_true_iff.
  intros [[Ht Hab] Hac].
  apply truthy_Mk in Ht. destruct Ht as [m Hm].
  apply cell_eqb_eq in Hab, Hac. exists m. rewrite <- Hab, <- Hac. auto.
Qed.

Lemma holds_lineTest squares l m : holds squares l m -> lineTest squares l = true.
Proof.
  destruct l as [[a b] c]. unfold holds, lineTest. intros (Ha & Hb & Hc).
  rewrite Ha, Hb, Hc. simpl. now rewrite mark_eqb_refl.
Qed.

Lemma lineTest_complete squares l : lineTest squares l = true <-> complete squares l.
Proof.
  split.
  - destruct l as [[a b] c]. intros H.
    destruct (lineTest_holds _ _ _ _ H) as (m & _ & Hm). now exists m.
  - intros [m Hm]. eapply holds_lineTest; eauto.
Qed.

Lemma scanLines_spec ls squares :
  (exists l m, firstComplete ls squares l /\ holds squares l m
               /\ scanLines ls squares = mkOutcome (Mk m) (indices l))
  \/ ((forall l, In l ls -> ~ complete squares l)
      /\ scanLines ls squares = mkOutcome Null []).
Proof.
  induction ls as [|[[a b] c] rest IH]; cbn [scanLines].
  - right. split; [intros l [] | reflexivity].
  - destruct (lineTest squares (a, b, c)) eqn:T.
    + left. destruct (lineTest_holds _ _ _ _ T) as (m & Ha & Hm).
      exists (a, b, c), m. split; [|split; [exact Hm | now rewrite Ha]].
      exists [], rest. split; [reflexivity|]. split; [intros l' [] | now exists m].
    + assert (Hno : ~ complete squares (a, b, c)).
      { intros Hc. apply lineTest_complete in Hc. congruence. }
      destruct IH as [(l & m & (pre & post & E & Hpre & Hl) & Hm & R) | [Hnone R]].
      * left. exists l, m. split; [|split; assumption].
        exists ((a, b, c) :: pre), post. split; [simpl; now rewrite E|].
        split; [|exact Hl]. intros l' [<- | Hin]; auto.
      * right. split; auto. intros l [<- | Hin]; auto.
Qed.

Lemma firstComplete_In ls squares l : firstComplete ls squares l -> In l ls.
Proof.
  intros (pre & post & E & _). rewrite E. apply in_or_app. right. now left.
Qed.

(** [C4] For every board, [calculateWinner] reports a winning mark exactly
    when one of the eight lines (the three rows, then the three columns,
    then the two diagonals) has three non-empty identical cells; it then
    returns the first such line in that order together with the mark on
    it, and otherwise [null] and no line.  The result carries one line at
    most. *)
Theorem calculateWinner_first_complete_line (squares : Board) :
  LINES = rows ++ cols ++ diags
  /\ (truthy (winner (calculateWinner squares)) = true
      <-> exists l, In l LINES /\ complete squares l)
  /\ ((exists l m, firstComplete LINES squares l /\ holds squares l m
                   /\ calculateWinner squares = mkOutcome (Mk m) (indices l))
      \/ (undecided squares
          /\ calculateWinner squares = mkOutcome Null []))
  /\ (line (calculateWinner squares) = []
      \/ exists l, In l LINES /\ line (calculateWinner squares) = indices l).
Proof.
  split; [reflexivity|].
  unfold calculateWinner, undecided.
  destruct (scanLines_spec LINES squares)
    as [(l & m & Hfirst & Hm & R) | [Hnone R]].
  - pose proof (firstComplete_In _ _ _ Hfirst) as Hl.
    split; [|split].
    + rewrite R. cbn [winner truthy]. split; [intros _ | reflexivity].
      exists l. split; [exact Hl | now exists m].
    + left. exists l, m. auto.
    + right. exists l. rewrite R. auto.
  - split; [|split].
    + rewrite R. cbn [winner truthy]. split; [discriminate|].
      intros (l & Hin & Hc). exfalso. eapply Hnone; eauto.
    + right. auto.
    + left. now rewrite R.
Qed.

(* ================================================================== *)
(** ** The advisor, tier by tier *)

Lemma nth_error_filter_pick (f : nat -> bool) (l : list nat) (r : draw) :
  (length (filter f l) =? 0) = false ->
  exists i, nth_error (filter f l) (floorTimes r (length (filter f l))) = Some i
            /\ In i l /\ f i = true.
Proof.
  intros H. apply Nat.eqb_neq in H.
  assert (Hlt : floorTimes r (length (filter f l)) < length (filter f l))
    by (apply floorTimes_lt; lia).
  apply nth_error_Some in Hlt.
  destruct (nth_error (filter f l) _) as [i|] eqn:E; [|congruence].
  exists i. split; [reflexivity|]. apply nth_error_In in E.
  now apply filter_In in E.
Qed.

Lemma filter_length_0 (f : nat -> bool) (l : list nat) :
  (length (filter f l) =? 0) = true -> forall x, In x l -> f x = false.
Proof.
  intros H x Hx. apply Nat.eqb_eq, length_zero_iff_nil in H.
  destruct (f x) eqn:E; [|reflexivity].
  assert (In x (filter f l)) by (apply filter_In; auto).
  rewrite H in *. contradiction.
Qed.

(** What each [return] of [computeAIMove] means. *)
Lemma computeAIMove_traced_spec squares ai hu r :
  let av := emptyIndices squares in
  let '(t, res) := computeAIMove_traced squares ai hu r in
  match t with
  | NoMove => av = [] /\ res = None
  | Win =>
      exists i, res = Some i /\ In i av /\ tryMove squares i ai = true
  | Block =>
      noneWins squares ai
      /\ exists i, res = Some i /\ In i av /\ tryMove squares i hu = true
  | Center =>
      noneWins squares ai /\ noneWins squares hu
      /\ res = Some 4 /\ In 4 av
  | Corner =>
      noneWins squares ai /\ noneWins squares hu /\ ~ In 4 av
      /\ exists i, res = Some i /\ In i av /\ In i [0; 2; 6; 8]
  | Side =>
      noneWins squares ai /\ noneWins squares hu /\ ~ In 4 av
      /\ (forall c, In c [0; 2; 6; 8] -> ~ In c av)
      /\ exists i, res = Some i /\ In i av /\ In i [1; 3; 5; 7]
  | Fallback =>
      noneWins squares ai /\ noneWins squares hu /\ ~ In 4 av
      /\ (forall c, In c [0; 2; 6; 8] -> ~ In c av)
      /\ (forall c, In c [1; 3; 5; 7] -> ~ In c av)
      /\ exists i, res = Some i /\ firstEmpty squares i
  end.
Proof.
  unfold computeAIMove_traced, noneWins.
  destruct (emptyIndices squares) as [|a0 l0] eqn:Eav; [simpl; auto|].
  change (length (a0 :: l0) =? 0) with false. cbv iota.
  destruct (find _ (a0 :: l0)) as [i|] eqn:F1.
  { apply find_some in F1. exists i. tauto. }
  pose proof (find_none _ _ F1) as N1. cbv beta in N1.
  destruct (find (fun idx => tryMove squares idx hu) _) as [i|] eqn:F2.
  { apply find_some in F2. split; [exact N1|]. exists i. tauto. }
  pose proof (find_none _ _ F2) as N2. cbv beta in N2.
  destruct (includes (a0 :: l0) 4) eqn:I4.
  { apply includes_In in I4. auto. }
  assert (H4 : ~ In 4 (a0 :: l0)).
  { intros H. apply includes_In in H. congruence. }
  destruct (length (filter (includes (a0 :: l0)) [0; 2; 6; 8]) =? 0) eqn:EC.
  2:{ cbn [negb]. cbv iota.
      destruct (nth_error_filter_pick _ _ r EC) as (i & E & Hi & Hin).
      repeat split; auto. exists i. rewrite includes_In in Hin. auto. }
  assert (HC : forall c, In c [0; 2; 6; 8] -> ~ In c (a0 :: l0)).
  { intros c Hc H. apply includes_In in H.
    rewrite (filter_length_0 _ _ EC c Hc) in H. discriminate. }
  destruct (length (filter (includes (a0 :: l0)) [1; 3; 5; 7]) =? 0) eqn:ES.
  2:{ cbn [negb]. cbv iota.
      destruct (nth_error_filter_pick _ _ r ES) as (i & E & Hi & Hin).
      repeat split; auto. exists i. rewrite includes_In in Hin. auto. }
  assert (HS : forall c, In c [1; 3; 5; 7] -> ~ In c (a0 :: l0)).
  { intros c Hc H. apply includes_In in H.
    rewrite (filter_length_0 _ _ ES c Hc) in H. discriminate. }
  cbn [negb nth_error]. cbv iota.
  repeat split; auto. exists a0. split; [reflexivity|].
  eapply emptyIndices_head; eauto.
Qed.

Lemma isEmpty_lt squares i : isEmpty squares i -> i < length squares.
Proof.
  unfold isEmpty, get. intros H.
  destruct (Nat.lt_ge_cases i (length squares)) as [Hlt | Hge]; [exact Hlt|].
  rewrite nth_overflow in H by exact Hge. discriminate.
Qed.

(** Center, corners and edges are all the indices of a 9-cell board. *)
Lemma nine_cells_covered i :
  i < 9 -> i = 4 \/ In i [0; 2; 6; 8] \/ In i [1; 3; 5; 7].
Proof.
  intros H. do 9 (destruct i as [|i]; [simpl; tauto|]). lia.
Qed.

Lemma computeAIMove_available squares ai hu r :
  (emptyIndices squares = [] /\ computeAIMove squares ai hu r = None)
  \/ (exists i, computeAIMove squares ai hu r = Some i
                /\ In i (emptyIndices squares)).
Proof.
  pose proof (computeAIMove_traced_spec squares ai hu r) as H.
  unfold computeAIMove. cbv zeta in H.
  destruct (computeAIMove_traced squares ai hu r) as [t res]. cbn [snd].
  destruct t.
  - left. tauto.
  - right. destruct H as (i & ? & ? & ?). eauto.
  - right. destruct H as (_ & i & ? & ? & ?). eauto.
  - right. destruct H as (_ & _ & ? & ?). eauto.
  - right. destruct H as (_ & _ & _ & i & ? & ? & ?). eauto.
  - right. destruct H as (_ & _ & _ & _ & i & ? & ? & ?). eauto.
  - right. destruct H as (_ & _ & _ & _ & _ & i & ? & [? _]).
    exists i. split; [assumption|]. now apply In_emptyIndices.
Qed.

(** [C1] For every board, [computeAIMove] returns [null] if and only if
    the board has no empty cell, and a cell index it returns is the index
    of an empty cell of the board. *)
Theorem computeAIMove_none_iff_full
    (squares : Board) (ai hu : mark) (r : draw) :
  (computeAIMove squares ai hu r = None <-> full squares)
  /\ (forall i, computeAIMove squares ai hu r = Some i -> isEmpty squares i).
Proof.
  destruct (computeAIMove_available squares ai hu r)
    as [[Hav R] | (i & R & Hin)].
  - rewrite R. split.
    + split; [intros _; now apply emptyIndices_nil | reflexivity].
    + discriminate.
  - rewrite R. split.
    + split; [discriminate|]. intros Hfull. exfalso.
      apply (Hfull i). now apply In_emptyIndices.
    + intros j [= <-]. now apply In_emptyIndices.
Qed.

(** [C10] On a 9-cell board with an empty cell, [computeAIMove] returns
    from one of its tiers 1 to 5: the final [return available[0]] is never
    reached, because the center, the corners and the edges are all nine
    indices. *)
Theorem computeAIMove_fallback_unreachable
    (squares : Board) (ai hu : mark) (r : draw) :
  length squares = 9 ->
  (exists i, isEmpty squares i) ->
  In (fst (computeAIMove_traced squares ai hu r)) [Win; Block; Center; Corner; Side].
Proof.
  intros Hlen (i & Hi).
  pose proof (computeAIMove_traced_spec squares ai hu r) as H. cbv zeta in H.
  destruct (computeAIMove_traced squares ai hu r) as [t res]. cbn [fst].
  destruct t; simpl; auto 7.
  - exfalso. destruct H as [Hav _].
    apply In_emptyIndices in Hi. rewrite Hav in Hi. contradiction.
  - exfalso. destruct H as (_ & _ & H4 & HC & HS & _).
    pose proof (isEmpty_lt _ _ Hi) as Hlt. rewrite Hlen in Hlt.
    apply In_emptyIndices in Hi.
    destruct (nine_cells_covered i Hlt) as [-> | [Hc | Hs]].
    + contradiction.
    + exact (HC _ Hc Hi).
    + exact (HS _ Hs Hi).
Qed.

Lemma computeAIMove_fallback_unreachable_witness :
  In (fst (computeAIMove_traced spec_example_board O X half))
     [Win; Block; Center; Corner; Side].
Proof.
  apply computeAIMove_fallback_unreachable.
  - reflexivity.
  - exists 2. reflexivity.
Defined.




(* ================================================================== *)
(** ** Tiers 1 and 2 and the completion of a line *)

Lemma undecided_iff_no_winner squares :
  undecided squares <-> winner (calculateWinner squares) = Null.
Proof.
  unfold undecided, calculateWinner.
  destruct (scanLines_spec LINES squares)
    as [(l & m & Hfirst & Hm & R) | [Hnone R]]; rewrite R; cbn [winner].
  - split; [|discriminate]. intros H. exfalso.
    apply (H l); [eapply firstComplete_In; eauto | now exists m].
  - tauto.
Qed.

Lemma holds_frame squares i v l m :
  ~ In i (indices l) -> holds (array_set squares i v) l m -> holds squares l m.
Proof.
  destruct l as [[a b] c]. unfold holds. cbn [indices In]. intros Hn.
  rewrite !get_array_set_ne by (intros ->; tauto). tauto.
Qed.

Lemma holds_at squares l m i :
  In i (indices l) -> holds squares l m -> get squares i = Mk m.
Proof.
  destruct l as [[a b] c]. unfold holds. cbn [indices In].
  intros [<- | [<- | [<- | []]]]; tauto.
Qed.

(** On a board without a complete line, the check of tiers 1 and 2 accepts
    an empty cell exactly when filling it completes a line for the mark. *)
Lemma tryMove_completesLine squares i m :
  undecided squares -> isEmpty squares i ->
  tryMove squares i m = true <-> completesLine squares i m.
Proof.
  intros Hund Hi. unfold tryMove, completesLine, calculateWinner.
  set (copy := array_set squares i (Mk m)).
  assert (Hold : forall l n, In l LINES -> holds copy l n -> In i (indices l)).
  { intros l n Hl Hn.
    destruct (in_dec Nat.eq_dec i (indices l)) as [Hin | Hout]; [exact Hin|].
    exfalso. apply (Hund l Hl). exists n. eapply holds_frame; eauto. }
  destruct (scanLines_spec LINES copy)
    as [(l & n & Hfirst & Hn & R) | [Hnone R]]; rewrite R; cbn [winner].
  - pose proof (firstComplete_In _ _ _ Hfirst) as Hl.
    pose proof (Hold l n Hl Hn) as Hin.
    assert (n = m) as ->.
    { pose proof (holds_at _ _ _ _ Hin Hn) as E.
      unfold copy in E. rewrite get_array_set_eq in E. congruence. }
    rewrite cell_eqb_refl. split; [intros _ | reflexivity].
    split; [exact Hi|]. exists l. auto.
  - split; [discriminate|]. intros (_ & l & Hl & _ & Hm). exfalso.
    apply (Hnone l Hl). now exists m.
Qed.

Lemma find_completesLine squares m :
  undecided squares ->
  match find (fun idx => tryMove squares idx m) (emptyIndices squares) with
  | Some j => completesLine squares j m
  | None => ~ exists i, completesLine squares i m
  end.
Proof.
  intros Hund.
  destruct (find _ _) as [j|] eqn:F.
  - apply find_some in F. destruct F as [Hin T].
    apply tryMove_completesLine; auto. now apply In_emptyIndices.
  - intros (i & Hc). pose proof Hc as [Hi _].
    apply tryMove_completesLine in Hc; auto.
    apply In_emptyIndices in Hi.
    pose proof (find_none _ _ F i Hi) as N. cbv beta in N. congruence.
Qed.

(** On a board without a complete line the checks of tiers 1 and 2 fail
    for every available cell exactly when no empty cell completes a line. *)
Lemma noneWins_iff squares m :
  undecided squares ->
  noneWins squares m <-> ~ exists i, completesLine squares i m.
Proof.
  intros Hund. unfold noneWins. split.
  - intros H (i & Hc). pose proof Hc as [Hi _].
    apply tryMove_completesLine in Hc; auto.
    apply In_emptyIndices in Hi. rewrite (H i Hi) in Hc. discriminate.
  - intros H i Hi. apply In_emptyIndices in Hi.
    destruct (tryMove squares i m) eqn:T; [|reflexivity].
    exfalso. apply H. exists i. now apply tryMove_completesLine.
Qed.

(** [C2], as the code has it: on a board with an empty cell and no line
    complete yet, when some empty cell completes a line for the advisor's
    mark [computeAIMove] returns such a cell; otherwise, when some empty
    cell completes a line for the opponent's mark, it returns such a cell.
    For the board [X,X,_, O,O,_, _,_,_] with advisor [O] and opponent [X]
    it returns index 5. *)
Theorem computeAIMove_wins_then_blocks :
  (forall squares ai hu r,
      undecided squares ->
      (exists i, isEmpty squares i) ->
      advisorPriority squares ai hu (computeAIMove squares ai hu r))
  /\ (forall r, computeAIMove spec_example_board O X r = Some 5).
Proof.
  split; [|reflexivity].
  intros squares ai hu r Hund (i0 & Hi0).
  pose proof (find_completesLine squares ai Hund) as F1.
  pose proof (find_completesLine squares hu Hund) as F2.
  pose proof (computeAIMove_traced_spec squares ai hu r) as H. cbv zeta in H.
  unfold advisorPriority, computeAIMove.
  destruct (computeAIMove_traced squares ai hu r) as [t res] eqn:E. cbn [snd].
  revert E. unfold computeAIMove_traced.
  destruct (emptyIndices squares) as [|a0 l0] eqn:Eav.
  { apply In_emptyIndices in Hi0. rewrite Eav in Hi0. contradiction. }
  change (length (a0 :: l0) =? 0) with false. cbv iota.
  destruct (find (fun idx => tryMove squares idx ai) (a0 :: l0)) as [j|].
  { intros [= <- <-]. split; [intros _; eauto | intros N; exfalso; eauto]. }
  destruct (find (fun idx => tryMove squares idx hu) (a0 :: l0)) as [j|].
  { intros [= <- <-]. split; [intros N; contradiction | intros _ _; eauto]. }
  intros _. split; intros; contradiction.
Qed.

Lemma computeAIMove_wins_then_blocks_witness :
  exists j, computeAIMove spec_example_board O X half = Some j
            /\ completesLine spec_example_board j O.
Proof.
  refine (proj1 (proj1 computeAIMove_wins_then_blocks
                       spec_example_board O X half _ _) _).
  - apply undecided_iff_no_winner. reflexivity.
  - exists 2. reflexivity.
  - exists 5. split; [reflexivity|].
    exists (3, 4, 5). cbn. repeat split; auto 10.
Defined.

(** [C2], as stated for every board with an empty cell, fails on a board
    that already holds a complete line: with [X] on the top row and [O] on
    cells 6 and 7, cell 8 completes the bottom row for the advisor [O], yet
    the result is cell 3, which completes no line for [O]. *)
Lemma advisorPriority_fails_on_decided_board :
  (exists i, isEmpty decided_board i)
  /\ computeAIMove decided_board O X half = Some 3
  /\ completesLine decided_board 8 O
  /\ ~ completesLine decided_board 3 O
  /\ ~ advisorPriority decided_board O X (computeAIMove decided_board O X half).
Proof.
  assert (H8 : completesLine decided_board 8 O).
  { split; [reflexivity|]. exists (6, 7, 8). cbn. repeat split; auto 10. }
  assert (H3 : ~ completesLine decided_board 3 O).
  { intros (_ & l & Hl & Hin & Hh). cbn in Hl.
    repeat (destruct Hl as [<- | Hl];
            [cbn in Hin, Hh; try (destruct Hh as (? & ? & ?); discriminate);
             intuition discriminate|]).
    contradiction. }
  split; [exists 3; reflexivity|].
  split; [reflexivity|]. split; [exact H8|]. split; [exact H3|].
  intros [Hwin _]. destruct Hwin as (j & E & Hj); [eauto|].
  change (Some 3 = Some j) in E. injection E as <-. contradiction.
Qed.

(* ================================================================== *)
(** ** Renders and effects *)

Lemma StatusDeps_eqb_refl d : StatusDeps_eqb d d = true.
Proof.
  destruct d as [[w n] p]. unfold StatusDeps_eqb.
  now rewrite cell_eqb_refl, Nat.eqb_refl, mark_eqb_refl.
Qed.

Lemma AiDeps_eqb_refl d : AiDeps_eqb d d = true.
Proof.
  destruct d as [[[[m x] b] w] g]. unfold AiDeps_eqb.
  rewrite cell_eqb_refl, Nat.eqb_refl, !Bool.eqb_reflx.
  now destruct m.
Qed.

Lemma statusEffect_nonempty s : statusEffect s <> [].
Proof.
  unfold statusEffect.
  destruct (winnerOf s); try destruct (movesLeft s =? 0); discriminate.
Qed.

(** The status effect writes the status, the active flag and the scores
    only. *)
Lemma afterStatus_frame s :
  mode (afterStatus s) = mode s
  /\ board (afterStatus s) = board s
  /\ boardId (afterStatus s) = boardId s
  /\ xIsNext (afterStatus s) = xIsNext s.
Proof.
  unfold afterStatus, statusEffect.
  destruct (winnerOf s); try destruct (movesLeft s =? 0); cbn; auto.
Qed.

Lemma statusDepsOf_afterStatus s : statusDepsOf (afterStatus s) = statusDepsOf s.
Proof.
  destruct (afterStatus_frame s) as (_ & Hb & _ & Hx).
  unfold statusDepsOf, winnerOf, movesLeft, currentPlayer. now rewrite Hb, Hx.
Qed.

Lemma roundOver_afterStatus s : roundOver (afterStatus s) = roundOver s.
Proof.
  destruct (afterStatus_frame s) as (_ & Hb & _ & _).
  unfold roundOver, winnerOf, movesLeft. now rewrite Hb.
Qed.

Lemma afterStatus_gameActive s :
  gameActive (afterStatus s) = if roundOver s then false else gameActive s.
Proof.
  unfold afterStatus, statusEffect, roundOver.
  destruct (winnerOf s); try destruct (movesLeft s =? 0); reflexivity.
Qed.

Lemma settle_S n st :
  settle (S n) st =
  match snd (commit st) with
  | [] => fst (commit st)
  | _ => settle n (withSession (fst (commit st))
                               (applyUpdates (session st) (snd (commit st))))
  end.
Proof. reflexivity. Qed.

Lemma settle_quiet n st :
  statusRuns st = false -> settle (S n) st = fst (commit st).
Proof.
  intros H. rewrite settle_S. unfold commit. cbn [snd]. now rewrite H.
Qed.

Lemma settle_loud n st :
  statusRuns st = true ->
  settle (S (S n)) st =
  fst (commit (withSession (fst (commit st)) (afterStatus (session st)))).
Proof.
  intros H. rewrite settle_S.
  assert (E : snd (commit st) = statusEffect (session st)).
  { unfold commit. cbn [snd]. now rewrite H. }
  rewrite E. fold (afterStatus (session st)).
  destruct (statusEffect (session st)) eqn:Eups.
  { now apply statusEffect_nonempty in Eups. }
  apply settle_quiet.
  unfold statusRuns, commit, withSession.
  cbn [session statusDeps fst depsChanged].
  now rewrite statusDepsOf_afterStatus, StatusDeps_eqb_refl.
Qed.

(** Fuel: two rounds of rendering reach a state in which no effect is
    left to run, and more fuel changes nothing. *)
Lemma settle_fuel n st : settle (2 + n) st = settle renders st.
Proof.
  unfold renders. change (2 + n) with (S (S n)).
  destruct (statusRuns st) eqn:H.
  - now rewrite (settle_loud n st H), (settle_loud 0 st H).
  - now rewrite (settle_quiet (S n) st H), (settle_quiet 1 st H).
Qed.

Lemma commit_committed st : committed (fst (commit st)).
Proof. unfold committed, commit. cbn. auto. Qed.

Lemma settle_committed st : committed (settle renders st).
Proof.
  unfold renders. destruct (statusRuns st) eqn:H.
  - rewrite settle_loud by exact H. apply commit_committed.
  - rewrite settle_quiet by exact H. apply commit_committed.
Qed.

Lemma committed_stable st : committed st -> commit st = (st, []).
Proof.
  intros [H1 H2]. unfold commit, aiPhase, statusRuns, aiRuns.
  rewrite H1, H2. cbn [depsChanged].
  rewrite StatusDeps_eqb_refl, AiDeps_eqb_refl. cbn [negb].
  destruct st; cbn in *. now rewrite H1, H2.
Qed.

Lemma settle_stable st : commit (settle renders st) = (settle renders st, []).
Proof. apply committed_stable, settle_committed. Qed.

(** The session after the renders caused by an update. *)
Lemma settle_session st :
  session (settle renders st) =
  if statusRuns st then afterStatus (session st) else session st.
Proof.
  unfold renders. destruct (statusRuns st) eqn:H.
  - now rewrite settle_loud.
  - now rewrite settle_quiet.
Qed.

Lemma movesLeft_0_full s : movesLeft s = 0 <-> full (board s).
Proof.
  unfold movesLeft. rewrite length_zero_iff_nil. apply emptyIndices_nil.
Qed.



Lemma afterStatus_turn s :
  truthy (winnerOf s) = false -> movesLeft s <> 0 ->
  scores (afterStatus s) = scores s
  /\ gameActive (afterStatus s) = gameActive s
  /\ statusMessage (afterStatus s)
     = ("Turn: " ++ markName (currentPlayer s))%string.
Proof.
  unfold afterStatus, statusEffect. intros Hw Hm.
  apply Nat.eqb_neq in Hm. rewrite Hm.
  destruct (winnerOf s); try discriminate; cbn; auto.
Qed.


(* ================================================================== *)
(** ** Clicks and restarts *)

(** [C6] A click on a cell changes nothing of the state, and the handler
    returns normally, when the round is over, when the cell is occupied,
    or when the mode is the one against the advisor and it is the turn
    of [O]. *)
Theorem handleClick_rejected (st : State) (i : nat) :
  gameActive (session st) = false
  \/ truthy (get (board (session st)) i) = true
  \/ (mode (session st) = HUMAN_AI /\ xIsNext (session st) = false) ->
  handleClick (session st) i = [] /\ step st (Click i) = st.
Proof.
  intros H.
  assert (E : handleClick (session st) i = []).
  { unfold handleClick, canPlay.
    destruct H as [H | [H | [Hm Hx]]].
    - now rewrite H.
    - rewrite H. now destruct (negb (gameActive _ && _)).
    - rewrite Hm, Hx.
      destruct (negb (gameActive _ && _)); [reflexivity|].
      now destruct (truthy (get _ i)). }
  split; [exact E|]. cbn [step]. now rewrite E.
Qed.

Lemma handleClick_rejected_witness :
  step (step mount (Click 0)) (Click 0) = step mount (Click 0).
Proof.
  apply (handleClick_rejected (step mount (Click 0)) 0).
  right. left. reflexivity.
Defined.




(** The session that [restartGame] requests, before the next render. *)
Lemma restartGame_session s hard :
  let s1 := applyUpdates s (restartGame hard) in
  board s1 = emptyBoard
  /\ xIsNext s1 = true
  /\ gameActive s1 = true
  /\ mode s1 = mode s
  /\ boardId s1 = S (boardId s)
  /\ scores s1 = (if hard then mkScores 0 0 0 else scores s).
Proof. destruct hard; cbn; auto 10. Qed.

Lemma emptyBoard_open s :
  board s = emptyBoard -> truthy (winnerOf s) = false /\ movesLeft s <> 0.
Proof.
  unfold winnerOf, movesLeft. intros ->. split; [reflexivity | discriminate].
Qed.

(** After the renders that follow the request of an empty board, the
    session is the requested one up to the status text. *)
Lemma settle_emptyBoard st :
  board (session st) = emptyBoard ->
  let s' := session (settle renders st) in
  board s' = emptyBoard
  /\ xIsNext s' = xIsNext (session st)
  /\ gameActive s' = gameActive (session st)
  /\ mode s' = mode (session st)
  /\ scores s' = scores (session st).
Proof.
  intros Hb s'. subst s'. rewrite settle_session.
  destruct (statusRuns st); [|auto].
  destruct (emptyBoard_open _ Hb) as [Hw Hm].
  destruct (afterStatus_frame (session st)) as (Hmode & Hboard & _ & Hx).
  destruct (afterStatus_turn _ Hw Hm) as (Hs & Hg & _).
  rewrite Hboard, Hx, Hg, Hmode, Hs. auto.
Qed.

(** [C8] "Restart Round" ([restartGame(false)]) leaves a board of nine
    empty cells, [X] as the active mark and an active round, and the three
    score counters as they were. *)
Theorem restartRound_keeps_scores (st : State) :
  let s' := session (step st RestartRound) in
  board s' = emptyBoard
  /\ (length (board s') = 9 /\ forall i, i < 9 -> isEmpty (board s') i)
  /\ currentPlayer s' = X
  /\ gameActive s' = true
  /\ scoreX (scores s') = scoreX (scores (session st))
  /\ scoreO (scores s') = scoreO (scores (session st))
  /\ scoreDraws (scores s') = scoreDraws (scores (session st)).
Proof.
  intros s'. subst s'. cbn [step].
  change (dispatch st (restartGame false))
    with (settle renders
            (withSession st (applyUpdates (session st) (restartGame false)))).
  destruct (restartGame_session (session st) false)
    as (Hb & Hx & Hg & _ & _ & Hs). cbv zeta in *.
  destruct (settle_emptyBoard
              (withSession st (applyUpdates (session st) (restartGame false))) Hb)
    as (Hb' & Hx' & Hg' & _ & Hs').
  cbn [session withSession] in *.
  unfold currentPlayer. rewrite Hb', Hx', Hg', Hs', Hx, Hg, Hs.
  repeat split; auto.
  intros i Hi. do 9 (destruct i as [|i]; [reflexivity|]). lia.
Qed.

(* ================================================================== *)
(** ** Timeouts *)

Lemma clearTimeout_In id ts k b :
  In (k, b) (clearTimeout id ts) -> In (k, b) ts /\ k <> id.
Proof.
  unfold clearTimeout. rewrite filter_In. cbn [fst].
  intros [Hin Hne]. split; [exact Hin|].
  apply negb_true_iff, Nat.eqb_neq in Hne. exact Hne.
Qed.

Lemma clearTimeout_all id ts :
  (forall k b, In (k, b) ts -> k = id) -> clearTimeout id ts = [].
Proof.
  intros H. destruct (clearTimeout id ts) as [|[k b] rest] eqn:E; [reflexivity|].
  assert (Hin : In (k, b) (clearTimeout id ts)) by (rewrite E; now left).
  apply clearTimeout_In in Hin. destruct Hin as [Hin Hne].
  exfalso. apply Hne. eauto.
Qed.

Lemma lookupTimer_In id ts b : lookupTimer id ts = Some b -> In (id, b) ts.
Proof.
  induction ts as [|[k c] rest IH]; cbn [lookupTimer]; [discriminate|].
  destruct (k =? id) eqn:E.
  - apply Nat.eqb_eq in E. intros [= ->]. subst. now left.
  - intros H. right. auto.
Qed.

Lemma lookupTimer_absent id ts :
  (forall b, ~ In (id, b) ts) -> lookupTimer id ts = None.
Proof.
  intros H. destruct (lookupTimer id ts) as [b|] eqn:E; [|reflexivity].
  apply lookupTimer_In in E. exfalso. eapply H; eauto.
Qed.

Lemma runAiCleanup_owned st :
  owned st ->
  timers (runAiCleanup st) = []
  /\ nextTimer (runAiCleanup st) = nextTimer st
  /\ session (runAiCleanup st) = session st.
Proof.
  intros Hown. unfold runAiCleanup.
  destruct (aiCleanup st) as [c|] eqn:E; cbn [timers nextTimer session].
  - repeat split. apply clearTimeout_all. intros k b Hin.
    pose proof (Hown k b Hin). congruence.
  - repeat split. destruct (timers st) as [|[k b] rest] eqn:Et; [reflexivity|].
    assert (Hin : In (k, b) (timers st)) by (rewrite Et; now left).
    pose proof (Hown k b Hin). congruence.
Qed.

(** A run of the advisor effect leaves the one timeout it sets, or none. *)
Lemma aiPhase_runs st :
  owned st -> aiRuns st = true ->
  (aiEffectArms (session st) = true
   /\ timers (aiPhase st) = [(nextTimer st, board (session st))]
   /\ aiCleanup (aiPhase st) = Some (nextTimer st)
   /\ nextTimer (aiPhase st) = S (nextTimer st))
  \/ (aiEffectArms (session st) = false
      /\ timers (aiPhase st) = []
      /\ aiCleanup (aiPhase st) = None
      /\ nextTimer (aiPhase st) = nextTimer st).
Proof.
  intros Hown Hruns. unfold aiPhase. rewrite Hruns.
  destruct (runAiCleanup_owned st Hown) as (Ht & Hn & Hs).
  unfold runAiEffect. rewrite Hs, Ht, Hn.
  destruct (aiEffectArms (session st)); [left | right]; cbn; auto.
Qed.

Lemma aiEffectArms_true s :
  aiEffectArms s = true ->
  gameActive s = true /\ truthy (winnerOf s) = false
  /\ mode s = HUMAN_AI /\ xIsNext s = false.
Proof.
  unfold aiEffectArms.
  destruct (gameActive s), (truthy (winnerOf s)), (mode s), (xIsNext s);
    cbn; intros; try discriminate; auto.
Qed.

Lemma AiDeps_eqb_true s t :
  AiDeps_eqb (aiDepsOf s) (aiDepsOf t) = true ->
  boardId s = boardId t /\ gameActive s = gameActive t.
Proof.
  unfold AiDeps_eqb, aiDepsOf. rewrite !andb_true_iff.
  intros [[[[_ _] Hb] _] Hg].
  apply Nat.eqb_eq in Hb. apply Bool.eqb_prop in Hg. auto.
Qed.

Lemma StatusDeps_eqb_true s t :
  StatusDeps_eqb (statusDepsOf s) (statusDepsOf t) = true ->
  currentPlayer s = currentPlayer t.
Proof.
  unfold StatusDeps_eqb, statusDepsOf. rewrite !andb_true_iff.
  intros [_ Hp]. now apply mark_eqb_eq.
Qed.

(** After a [setBoard] both effects' turn comes when the dependencies
    were those of the session before. *)
Lemma aiRuns_new_board st s1 :
  aiDeps st = Some (aiDepsOf (session st)) ->
  boardId s1 = S (boardId (session st)) ->
  aiRuns (withSession st s1) = true.
Proof.
  intros Hd Hb. unfold aiRuns, withSession. cbn [aiDeps session].
  rewrite Hd. cbn [depsChanged].
  destruct (AiDeps_eqb _ _) eqn:E; [|reflexivity].
  apply AiDeps_eqb_true in E. lia.
Qed.

Lemma statusRuns_new_player st s1 :
  statusDeps st = Some (statusDepsOf (session st)) ->
  currentPlayer s1 <> currentPlayer (session st) ->
  statusRuns (withSession st s1) = true.
Proof.
  intros Hd Hp. unfold statusRuns, withSession. cbn [statusDeps session].
  rewrite Hd. cbn [depsChanged].
  destruct (StatusDeps_eqb _ _) eqn:E; [|reflexivity].
  apply StatusDeps_eqb_true in E. congruence.
Qed.

Lemma afterStatus_open s :
  roundOver s = false ->
  gameActive (afterStatus s) = gameActive s
  /\ aiDepsOf (afterStatus s) = aiDepsOf s
  /\ aiEffectArms (afterStatus s) = aiEffectArms s.
Proof.
  intros H.
  destruct (afterStatus_frame s) as (Hm & Hb & Hi & Hx).
  pose proof (afterStatus_gameActive s) as Hg. rewrite H in Hg.
  unfold aiDepsOf, aiEffectArms, winnerOf. rewrite Hm, Hb, Hi, Hx, Hg. auto.
Qed.

Lemma afterStatus_over s :
  roundOver s = true ->
  gameActive (afterStatus s) = false /\ aiEffectArms (afterStatus s) = false.
Proof.
  intros H. pose proof (afterStatus_gameActive s) as Hg. rewrite H in Hg.
  unfold aiEffectArms. rewrite Hg. auto.
Qed.

(* ================================================================== *)
(** ** The invariant of the controller *)

Lemma commit_fields st :
  session (fst (commit st)) = session st
  /\ aiCleanup (fst (commit st)) = aiCleanup (aiPhase st)
  /\ timers (fst (commit st)) = timers (aiPhase st)
  /\ nextTimer (fst (commit st)) = nextTimer (aiPhase st).
Proof. unfold commit. cbn. auto. Qed.

Lemma timersOk_aiPhase st :
  owned st -> aiRuns st = true ->
  forall id b, In (id, b) (timers (aiPhase st)) ->
    aiCleanup (aiPhase st) = Some id
    /\ b = board (session st)
    /\ aiEffectArms (session st) = true
    /\ id < nextTimer (aiPhase st).
Proof.
  intros Hown Hruns id b Hin.
  destruct (aiPhase_runs st Hown Hruns)
    as [(Ha & Ht & Hc & Hn) | (Ha & Ht & Hc & Hn)];
    rewrite Ht in Hin; cbn [In] in Hin; [|contradiction].
  destruct Hin as [[= <- <-] | []]. rewrite Hc, Hn. auto.
Qed.

(** The renders after an update that stored a new board and left the
    round active re-establish the invariant. *)
Lemma settle_Inv st :
  owned st ->
  aiRuns st = true ->
  gameActive (session st) = true ->
  statusRuns st = true \/ roundOver (session st) = false ->
  Inv (settle renders st).
Proof.
  intros Hown Hai Hact Hstatus.
  split; [apply settle_committed|].
  unfold renders. destruct (statusRuns st) eqn:Hruns.
  - (* the status effect runs, a second render follows *)
    rewrite settle_loud by exact Hruns.
    set (s := session st) in *.
    set (st2 := withSession (fst (commit st)) (afterStatus s)).
    destruct (commit_fields st) as (Hs1 & Hc1 & Ht1 & Hn1).
    destruct (commit_fields st2) as (Hs2 & Hc2 & Ht2 & Hn2).
    assert (Hsess2 : session st2 = afterStatus s) by reflexivity.
    assert (Hown2 : owned st2).
    { intros id b Hin. unfold st2, withSession in *. cbn [timers aiCleanup] in *.
      rewrite Ht1 in Hin. rewrite Hc1.
      now apply (timersOk_aiPhase st Hown Hai id b). }
    rewrite Hs2, Hsess2. split.
    + rewrite roundOver_afterStatus, afterStatus_gameActive.
      destruct (roundOver s); [reflexivity | exact Hact].
    + intros id b Hin. rewrite Hc2, Hn2, Hs2, Hsess2. rewrite Ht2 in Hin.
      destruct (roundOver s) eqn:Hover.
      * (* the round ended: the effect runs again and only clears *)
        destruct (afterStatus_over s Hover) as (Hg & Harms).
        assert (Hai2 : aiRuns st2 = true).
        { unfold aiRuns, st2, withSession, commit. cbn [aiDeps session fst].
          cbn [depsChanged]. destruct (AiDeps_eqb _ _) eqn:E; [|reflexivity].
          apply AiDeps_eqb_true in E. fold s in E. destruct E as [_ E].
          exfalso. congruence. }
        destruct (timersOk_aiPhase st2 Hown2 Hai2 id b Hin) as (_ & _ & Ha & _).
        rewrite Hsess2 in Ha. congruence.
      * (* the round goes on: the dependencies are unchanged *)
        destruct (afterStatus_open s Hover) as (Hg & Hd & Harms).
        assert (Hskip : aiPhase st2 = st2).
        { unfold aiPhase, aiRuns, st2, withSession, commit.
          cbn [aiDeps session fst depsChanged]. fold s.
          now rewrite Hd, AiDeps_eqb_refl. }
        rewrite Hskip in Hin. rewrite Hskip.
        change (timers st2) with (timers (fst (commit st))) in Hin.
        change (aiCleanup st2) with (aiCleanup (fst (commit st))).
        change (nextTimer st2) with (nextTimer (fst (commit st))).
        rewrite Ht1 in Hin. rewrite Hc1, Hn1, Harms.
        destruct (afterStatus_frame s) as (_ & Hb & _ & _). rewrite Hb.
        now apply (timersOk_aiPhase st Hown Hai id b).
  - rewrite settle_quiet by exact Hruns.
    destruct (commit_fields st) as (Hs1 & Hc1 & Ht1 & Hn1).
    rewrite Hs1. split.
    + destruct Hstatus as [H | H]; [discriminate|]. now rewrite H, Hact.
    + intros id b Hin. rewrite Hc1, Hn1. rewrite Ht1 in Hin.
      now apply (timersOk_aiPhase st Hown Hai id b).
Qed.

Lemma Inv_mount : Inv mount.
Proof.
  split; [apply settle_committed|]. split; [reflexivity|].
  intros id b Hin. vm_compute in Hin. contradiction.
Qed.

Lemma Inv_restart st ups :
  Inv st ->
  ups = restartGame false \/ ups = startNewGame
  \/ (exists m, ups = handleModeChange m) ->
  Inv (dispatch st ups).
Proof.
  intros HI Hups.
  assert (Hs1 : board (applyUpdates (session st) ups) = emptyBoard
                /\ gameActive (applyUpdates (session st) ups) = true
                /\ boardId (applyUpdates (session st) ups) = S (boardId (session st))
                /\ ups <> []).
  { destruct Hups as [-> | [-> | [m ->]]]; cbn; repeat split; discriminate. }
  destruct Hs1 as (Hb & Hg & Hid & Hne).
  destruct ups as [|u ups]; [congruence|].
  change (dispatch st (u :: ups))
    with (settle renders (withSession st (applyUpdates (session st) (u :: ups)))).
  destruct HI as ((_ & Hd) & _ & Hok).
  apply settle_Inv.
  - intros id b Hin. now destruct (Hok id b Hin).
  - now apply aiRuns_new_board.
  - exact Hg.
  - right. unfold roundOver. cbn [session withSession].
    destruct (emptyBoard_open _ Hb) as [Hw Hm]. rewrite Hw.
    apply Nat.eqb_neq in Hm. now rewrite Hm.
Qed.

Lemma Inv_click st i : Inv st -> Inv (step st (Click i)).
Proof.
  intros HI. cbn [step]. unfold handleClick.
  destruct (negb (canPlay (session st))) eqn:Hplay; [exact HI|].
  destruct (truthy (get (board (session st)) i)); [exact HI|].
  destruct (Mode_eqb (mode (session st)) HUMAN_AI && negb (xIsNext (session st)));
    [exact HI|].
  cbn [dispatch applyUpdates fold_left applyUpdate].
  destruct HI as ((Hd1 & Hd2) & _ & Hok).
  apply settle_Inv.
  - intros id b Hin. now destruct (Hok id b Hin).
  - now apply aiRuns_new_board.
  - cbn. apply negb_false_iff in Hplay. unfold canPlay in Hplay.
    now apply andb_true_iff in Hplay.
  - left. apply statusRuns_new_player; [exact Hd1|].
    unfold currentPlayer. cbn. now destruct (xIsNext (session st)).
Qed.

Lemma Inv_timeout st id r : Inv st -> Inv (step st (Timeout id r)).
Proof.
  intros HI. cbn [step].
  destruct (lookupTimer id (timers st)) as [captured|] eqn:El; [|exact HI].
  apply lookupTimer_In in El.
  destruct HI as ((Hd1 & Hd2) & Hact & Hok).
  destruct (Hok id captured El) as (_ & _ & Harms & _).
  apply aiEffectArms_true in Harms. destruct Harms as (Hg & _ & _ & Hx).
  set (st0 := mkState _ _ _ _ (clearTimeout id (timers st)) _).
  assert (Hok0 : timersOk st0).
  { intros k b Hin. apply clearTimeout_In in Hin. now apply Hok. }
  unfold aiTimeout.
  assert (HI0 : Inv st0) by exact (conj (conj Hd1 Hd2) (conj Hact Hok0)).
  destruct (computeAIMove captured aiMark X r) as [idx|]; [|exact HI0].
  destruct (cell_eqb (get captured idx) Null); [|exact HI0].
  cbn [dispatch applyUpdates fold_left applyUpdate].
  apply settle_Inv.
  - intros k b Hin. now destruct (Hok0 k b Hin).
  - now apply aiRuns_new_board.
  - exact Hg.
  - left. apply statusRuns_new_player; [exact Hd1|].
    unfold currentPlayer. cbn. now rewrite Hx.
Qed.

Lemma Inv_step st e : Inv st -> Inv (step st e).
Proof.
  intros HI. destruct e as [i | | | m | id r].
  - now apply Inv_click.
  - apply Inv_restart; auto.
  - apply Inv_restart; auto.
  - apply Inv_restart; eauto.
  - now apply Inv_timeout.
Qed.

Lemma reachable_Inv st : reachable st -> Inv st.
Proof.
  induction 1 as [|st e _ IH]; [apply Inv_mount | now apply Inv_step].
Qed.

Lemma winner_truthy_iff squares :
  truthy (winner (calculateWinner squares)) = true
  <-> exists l, In l LINES /\ complete squares l.
Proof.
  unfold calculateWinner.
  destruct (scanLines_spec LINES squares)
    as [(l & m & Hfirst & Hm & R) | [Hnone R]]; rewrite R; cbn [winner truthy].
  - split; [intros _ | reflexivity].
    exists l. split; [eapply firstComplete_In; eauto | now exists m].
  - split; [discriminate|]. intros (l & Hin & Hc). exfalso. eapply Hnone; eauto.
Qed.

Lemma roundOver_iff s :
  roundOver s = true
  <-> (exists l, In l LINES /\ complete (board s) l) \/ full (board s).
Proof.
  unfold roundOver. rewrite orb_true_iff, Nat.eqb_eq.
  now rewrite movesLeft_0_full, <- winner_truthy_iff.
Qed.

(** [C7] In every state the controller can reach, once the effects that
    follow a move have run, the round is inactive if and only if the board
    has a complete line or has no empty cell. *)
Theorem gameActive_false_iff_round_over (st : State) :
  reachable st ->
  gameActive (session st) = false
  <-> (exists l, In l LINES /\ complete (board (session st)) l)
      \/ full (board (session st)).
Proof.
  intros Hreach. apply reachable_Inv in Hreach.
  destruct Hreach as (_ & Hact & _).
  rewrite <- roundOver_iff, Hact. apply negb_false_iff.
Qed.

Lemma gameActive_false_iff_round_over_witness :
  gameActive (session (step mount (Click 0))) = false
  <-> (exists l, In l LINES /\ complete (board (session (step mount (Click 0)))) l)
      \/ full (board (session (step mount (Click 0)))).
Proof.
  apply gameActive_false_iff_round_over.
  apply reach_step, reach_mount.
Defined.

(* ================================================================== *)
(** ** A cleared timeout never comes back *)

Lemma timersGrow_refl st : timersGrow st st.
Proof. split; auto. Qed.

Lemma timersGrow_trans st1 st2 st3 :
  timersGrow st1 st2 -> timersGrow st2 st3 -> timersGrow st1 st3.
Proof.
  intros [Hn12 H12] [Hn23 H23]. split; [lia|].
  intros id b Hin. destruct (H23 id b Hin) as [Hin2 | Hge]; [|right; lia].
  exact (H12 id b Hin2).
Qed.

Lemma timersGrow_same st st' :
  timers st' = timers st -> nextTimer st' = nextTimer st -> timersGrow st st'.
Proof. intros Ht Hn. split; [lia|]. intros id b. rewrite Ht. auto. Qed.

Lemma timersGrow_clear st st' id :
  timers st' = clearTimeout id (timers st) -> nextTimer st' = nextTimer st ->
  timersGrow st st'.
Proof.
  intros Ht Hn. split; [lia|]. intros k b. rewrite Ht.
  intros Hin. apply clearTimeout_In in Hin. tauto.
Qed.

Lemma timersGrow_runAiCleanup st : timersGrow st (runAiCleanup st).
Proof.
  unfold runAiCleanup. destruct (aiCleanup st) as [c|].
  - now apply (timersGrow_clear st _ c).
  - apply timersGrow_refl.
Qed.

Lemma timersGrow_runAiEffect st : timersGrow st (runAiEffect st).
Proof.
  unfold runAiEffect. destruct (aiEffectArms (session st)).
  - split; cbn [nextTimer timers]; [lia|]. intros id b Hin.
    apply in_app_or in Hin. destruct Hin as [Hin | [[= <- <-] | []]]; auto.
  - now apply timersGrow_same.
Qed.

Lemma timersGrow_aiPhase st : timersGrow st (aiPhase st).
Proof.
  unfold aiPhase. destruct (aiRuns st); [|apply timersGrow_refl].
  eapply timersGrow_trans;
    [apply timersGrow_runAiCleanup | apply timersGrow_runAiEffect].
Qed.

Lemma timersGrow_commit st : timersGrow st (fst (commit st)).
Proof.
  eapply timersGrow_trans; [apply timersGrow_aiPhase|].
  now apply timersGrow_same.
Qed.

Lemma timersGrow_settle n : forall st, timersGrow st (settle n st).
Proof.
  induction n as [|n IH]; intros st; [apply timersGrow_refl|].
  rewrite settle_S. destruct (snd (commit st)); [apply timersGrow_commit|].
  eapply timersGrow_trans; [apply timersGrow_commit|].
  eapply timersGrow_trans; [|apply IH]. now apply timersGrow_same.
Qed.

Lemma timersGrow_dispatch st ups : timersGrow st (dispatch st ups).
Proof.
  destruct ups as [|u ups]; [apply timersGrow_refl|].
  change (dispatch st (u :: ups))
    with (settle renders (withSession st (applyUpdates (session st) (u :: ups)))).
  eapply timersGrow_trans; [|apply timersGrow_settle]. now apply timersGrow_same.
Qed.

Lemma timersGrow_step st e : timersGrow st (step st e).
Proof.
  destruct e as [i | | | m | id r]; cbn [step]; try apply timersGrow_dispatch.
  destruct (lookupTimer id (timers st)); [|apply timersGrow_refl].
  eapply timersGrow_trans; [|apply timersGrow_dispatch].
  now apply (timersGrow_clear st _ id).
Qed.

Lemma spent_grow id st st' : timersGrow st st' -> spent id st -> spent id st'.
Proof.
  intros [Hn Hsub] [Hlt Hout]. split; [lia|].
  intros b Hin. destruct (Hsub id b Hin) as [Hold | Hge]; [|lia].
  exact (Hout b Hold).
Qed.

Lemma spent_forever id st st' :
  reachableFrom st st' -> spent id st -> spent id st'.
Proof.
  induction 1 as [|st' e _ IH]; intros Hs; [exact Hs|].
  eapply spent_grow; [apply timersGrow_step | auto].
Qed.

Lemma spent_timeout id st r : spent id st -> step st (Timeout id r) = st.
Proof.
  intros [_ Hout]. cbn [step]. now rewrite (lookupTimer_absent id _ Hout).
Qed.

Lemma reset_session st e :
  isReset e = true ->
  board (session (step st e)) = emptyBoard
  /\ xIsNext (session (step st e)) = true.
Proof.
  intros He.
  assert (H : exists ups,
             step st e = settle renders (withSession st (applyUpdates (session st) ups))
             /\ board (applyUpdates (session st) ups) = emptyBoard
             /\ xIsNext (applyUpdates (session st) ups) = true).
  { destruct e as [i | | | m | id r]; try discriminate.
    - exists (restartGame false). now cbn.
    - exists startNewGame. now cbn.
    - exists (handleModeChange m). now cbn. }
  destruct H as (ups & -> & Hb & Hx).
  destruct (settle_emptyBoard (withSession st (applyUpdates (session st) ups)) Hb)
    as (Hb' & Hx' & _).
  split; [exact Hb' | now rewrite Hx'].
Qed.

(** [C9] When "Restart Round", "New Game" or a change of mode happens
    while a move of the advisor is pending, the board is cleared and the
    pending timeout is cancelled: no timeout is pending after the reset,
    and in no state reachable afterwards is that timeout pending again, so
    its callback never runs and never places a mark. *)
Theorem reset_cancels_pending_move
    (st : State) (id : nat) (captured : Board) (e : event) :
  reachable st ->
  In (id, captured) (timers st) ->
  isReset e = true ->
  board (session (step st e)) = emptyBoard
  /\ timers (step st e) = []
  /\ forall st', reachableFrom (step st e) st' ->
       (forall b, ~ In (id, b) (timers st'))
       /\ (forall r, step st' (Timeout id r) = st').
Proof.
  intros Hreach Hin He.
  pose proof (reachable_Inv st Hreach) as (_ & _ & Hok).
  pose proof (reachable_Inv _ (reach_step st e Hreach)) as (_ & _ & Hok').
  destruct (reset_session st e He) as [Hb Hx].
  assert (Hnone : timers (step st e) = []).
  { destruct (timers (step st e)) as [|[k b] rest] eqn:Et; [reflexivity|].
    assert (Hk : In (k, b) (timers (step st e))) by (rewrite Et; now left).
    destruct (Hok' k b Hk) as (_ & _ & Harms & _).
    apply aiEffectArms_true in Harms. destruct Harms as (_ & _ & _ & Hx').
    congruence. }
  split; [exact Hb|]. split; [exact Hnone|].
  assert (Hspent : spent id (step st e)).
  { split.
    - destruct (Hok id captured Hin) as (_ & _ & _ & Hlt).
      destruct (timersGrow_step st e) as [Hn _]. lia.
    - intros b. rewrite Hnone. intros []. }
  intros st' Hfrom. pose proof (spent_forever id _ _ Hfrom Hspent) as Hs.
  split; [apply Hs | intros r; now apply spent_timeout].
Qed.

Lemma reset_cancels_pending_move_witness :
  timers (step (run mount [ModeChange HUMAN_AI; Click 0]) RestartRound) = [].
Proof.
  refine (proj1 (proj2 (reset_cancels_pending_move
            (run mount [ModeChange HUMAN_AI; Click 0]) 0
            (array_set emptyBoard 0 (Mk X)) RestartRound _ _ _))).
  - apply reach_step, reach_step, reach_mount.
  - left. reflexivity.
  - reflexivity.
Defined.

(* ================================================================== *)
(** ** More on the empty cells *)

Lemma emptyFrom_increasing squares : forall k, increasing (emptyFrom k squares).
Proof.
  induction squares as [|c rest IH]; intros k; cbn [emptyFrom].
  - exact I.
  - destruct c; try apply IH.
    split; [|apply IH]. intros j Hj. apply In_emptyFrom in Hj. lia.
Qed.

Lemma increasing_NoDup (l : list nat) : increasing l -> NoDup l.
Proof.
  induction l as [|a l IH]; cbn [increasing]; intros H; constructor.
  - intros Hin. destruct H as [H _]. specialize (H a Hin). lia.
  - apply IH, H.
Qed.

(** [X1] [emptyIndices] returns the indices of the [null] cells, all of
    them, each once and in increasing order. *)
Theorem emptyIndices_sorted_exact (squares : Board) :
  (forall i, In i (emptyIndices squares) <-> isEmpty squares i)
  /\ increasing (emptyIndices squares)
  /\ NoDup (emptyIndices squares).
Proof.
  split; [intros i; apply In_emptyIndices|].
  pose proof (emptyFrom_increasing squares 0) as H.
  split; [exact H | now apply increasing_NoDup].
Qed.

Lemma emptyFrom_length_shift squares : forall k k',
  length (emptyFrom k squares) = length (emptyFrom k' squares).
Proof.
  induction squares as [|c rest IH]; intros k k'; cbn [emptyFrom]; [reflexivity|].
  destruct c; cbn [length]; auto.
Qed.

Lemma emptyFrom_after_move squares : forall i k m,
  get squares i = Null ->
  length (emptyFrom k (array_set squares i (Mk m))) + 1
  = length (emptyFrom k squares).
Proof.
  induction squares as [|c rest IH]; intros i k m Hi.
  - rewrite get_nil in Hi. discriminate.
  - destruct i as [|i].
    + cbn in Hi. subst c. cbn [array_set emptyFrom length]. lia.
    + change (get rest i = Null) in Hi. cbn [array_set emptyFrom].
      specialize (IH i (S k) m Hi).
      destruct c; cbn [length]; lia.
Qed.

(** [X2] Writing a mark into an empty cell removes that cell, and no
    other, from the empty cells: their number drops by exactly one. *)
Theorem emptyIndices_after_move (squares : Board) (i : nat) (m : mark) :
  isEmpty squares i ->
  (forall j, In j (emptyIndices (array_set squares i (Mk m)))
             <-> In j (emptyIndices squares) /\ j <> i)
  /\ length (emptyIndices (array_set squares i (Mk m))) + 1
     = length (emptyIndices squares).
Proof.
  intros Hi. split; [|now apply emptyFrom_after_move].
  intros j. rewrite !In_emptyIndices. unfold isEmpty.
  destruct (Nat.eq_dec i j) as [<- | Hne].
  - rewrite get_array_set_eq. split; [discriminate | tauto].
  - rewrite get_array_set_ne by exact Hne. split; [auto | tauto].
Qed.

Lemma emptyIndices_after_move_witness :
  length (emptyIndices (array_set emptyBoard 4 (Mk X))) + 1
  = length (emptyIndices emptyBoard).
Proof.
  apply (emptyIndices_after_move emptyBoard 4 X). reflexivity.
Defined.

(* ================================================================== *)
(** ** More on the evaluator *)

(** [X3] On a board without a complete line, after one more mark is
    written the evaluator reports no winner or the mark just written, and
    then the line it returns goes through the cell just written. *)
Theorem move_winner_is_mover (squares : Board) (i : nat) (m : mark) :
  undecided squares ->
  let res := calculateWinner (array_set squares i (Mk m)) in
  res = mkOutcome Null []
  \/ (winner res = Mk m /\ In i (line res)).
Proof.
  intros Hund res. subst res. unfold calculateWinner.
  destruct (scanLines_spec LINES (array_set squares i (Mk m)))
    as [(l & n & Hfirst & Hn & R) | [_ R]]; rewrite R; [right | now left].
  pose proof (firstComplete_In _ _ _ Hfirst) as Hl.
  assert (Hin : In i (indices l)).
  { destruct (in_dec Nat.eq_dec i (indices l)) as [Hin | Hout]; [exact Hin|].
    exfalso. apply (Hund l Hl). exists n. eapply holds_frame; eauto. }
  pose proof (holds_at _ _ _ _ Hin Hn) as E. rewrite get_array_set_eq in E.
  cbn [winner line]. split; [congruence | exact Hin].
Qed.

Lemma move_winner_is_mover_witness :
  calculateWinner (array_set spec_example_board 5 (Mk O)) = mkOutcome Null []
  \/ (winner (calculateWinner (array_set spec_example_board 5 (Mk O))) = Mk O
      /\ In 5 (line (calculateWinner (array_set spec_example_board 5 (Mk O))))).
Proof.
  apply (move_winner_is_mover spec_example_board 5 O).
  apply undecided_iff_no_winner. reflexivity.
Defined.

Lemma LINES_three l :
  In l LINES -> length (filter (includes (indices l)) (seq 0 9)) = 3.
Proof.
  cbn [LINES In]. intros H.
  repeat (destruct H as [<- | H]; [reflexivity|]). contradiction.
Qed.

(** [X4] The cells that [highlighted] marks are cells of the line the
    evaluator returned and hold the winner's mark; with a winner they are
    three of the nine cells, without one none is marked. *)
Theorem highlighted_winning_line (s : Session) :
  (forall i, highlighted s i = true ->
             exists m, winnerOf s = Mk m /\ get (board s) i = Mk m)
  /\ (truthy (winnerOf s) = true ->
      length (filter (highlighted s) (seq 0 9)) = 3)
  /\ (truthy (winnerOf s) = false -> forall i, highlighted s i = false).
Proof.
  unfold highlighted, lineOf, winnerOf, calculateWinner.
  destruct (scanLines_spec LINES (board s))
    as [(l & m & Hfirst & Hm & R) | [_ R]]; rewrite R; cbn [winner line truthy].
  - pose proof (firstComplete_In _ _ _ Hfirst) as Hl.
    split; [|split].
    + intros i Hi. apply includes_In in Hi. exists m.
      split; [reflexivity | eapply holds_at; eauto].
    + intros _. now apply LINES_three.
    + discriminate.
  - split; [|split].
    + intros i Hi. discriminate.
    + discriminate.
    + reflexivity.
Qed.

(* ================================================================== *)
(** ** More on the advisor *)

(** [X5] The value of [Math.random()] does not change which [return] of
    [computeAIMove] is taken, and changes the result only when that is
    the corner or the side tier. *)
Theorem computeAIMove_random_only_in_tiers_4_5
    (squares : Board) (ai hu : mark) (r r' : draw) :
  fst (computeAIMove_traced squares ai hu r)
  = fst (computeAIMove_traced squares ai hu r')
  /\ (In (fst (computeAIMove_traced squares ai hu r))
         [NoMove; Win; Block; Center; Fallback] ->
      computeAIMove squares ai hu r = computeAIMove squares ai hu r').
Proof.
  unfold computeAIMove, computeAIMove_traced.
  destruct (length (emptyIndices squares) =? 0); [cbn; auto|].
  destruct (find _ (emptyIndices squares)); [cbn; auto|].
  destruct (find _ (emptyIndices squares)); [cbn; auto|].
  destruct (includes _ 4); [cbn; auto|].
  destruct (negb (length (filter _ [0; 2; 6; 8]) =? 0)).
  { cbn. split; [reflexivity|]. intuition discriminate. }
  destruct (negb (length (filter _ [1; 3; 5; 7]) =? 0)).
  { cbn. split; [reflexivity|]. intuition discriminate. }
  cbn; auto.
Qed.

Lemma floorTimes_onto k n : k < n -> exists r, floorTimes r n = k.
Proof.
  intros H. exists (mkDraw k n (proj2 (Nat.ltb_lt k n) H)).
  unfold floorTimes. cbn [numer denom]. apply Nat.div_mul. lia.
Qed.

Lemma pick_any (l : list nat) (c : nat) :
  In c l -> exists r, nth_error l (floorTimes r (length l)) = Some c.
Proof.
  intros Hin. apply In_nth_error in Hin. destruct Hin as [k Hk].
  assert (Hlt : k < length l) by (apply nth_error_Some; congruence).
  destruct (floorTimes_onto k (length l) Hlt) as [r Hr].
  exists r. now rewrite Hr.
Qed.

(** [X6] When [computeAIMove] returns from the corner tier, every empty
    corner is the result for some value of [Math.random()]; likewise every
    empty edge when it returns from the side tier. *)
Theorem computeAIMove_every_candidate
    (squares : Board) (ai hu : mark) (r0 : draw) (c : nat) :
  isEmpty squares c ->
  (fst (computeAIMove_traced squares ai hu r0) = Corner /\ In c [0; 2; 6; 8])
  \/ (fst (computeAIMove_traced squares ai hu r0) = Side /\ In c [1; 3; 5; 7]) ->
  exists r, computeAIMove squares ai hu r = Some c.
Proof.
  intros Hc. apply In_emptyIndices, includes_In in Hc.
  unfold computeAIMove, computeAIMove_traced.
  destruct (length (emptyIndices squares) =? 0);
    [cbn; intros [[? _] | [? _]]; discriminate|].
  destruct (find _ (emptyIndices squares));
    [cbn; intros [[? _] | [? _]]; discriminate|].
  destruct (find _ (emptyIndices squares));
    [cbn; intros [[? _] | [? _]]; discriminate|].
  destruct (includes _ 4); [cbn; intros [[? _] | [? _]]; discriminate|].
  destruct (negb (length (filter _ [0; 2; 6; 8]) =? 0)).
  { cbn [fst snd]. intros [[_ Hin] | [? _]]; [|discriminate].
    apply pick_any, filter_In. auto. }
  destruct (negb (length (filter _ [1; 3; 5; 7]) =? 0)).
  { cbn [fst snd]. intros [[? _] | [_ Hin]]; [discriminate|].
    apply pick_any, filter_In. auto. }
  cbn; intros [[? _] | [? _]]; discriminate.
Qed.

Lemma computeAIMove_every_candidate_witness :
  exists r, computeAIMove (array_set emptyBoard 4 (Mk X)) O X r = Some 2.
Proof.
  apply (computeAIMove_every_candidate
           (array_set emptyBoard 4 (Mk X)) O X half 2).
  - reflexivity.
  - left. split; [reflexivity|]. right. left. reflexivity.
Defined.

(* ================================================================== *)
(** ** What an event does to a reachable state *)

Lemma settle_moved st i :
  statusDeps st = Some (statusDepsOf (session st)) ->
  session (settle renders (withSession st (moved (session st) i)))
  = afterStatus (moved (session st) i).
Proof.
  intros Hd. rewrite settle_session.
  rewrite statusRuns_new_player; [reflexivity | exact Hd |].
  unfold moved, currentPlayer. cbn. now destruct (xIsNext (session st)).
Qed.

(** In a state that satisfies the invariant, a pending timeout finds an
    empty cell: its callback always requests a move. *)
Lemma pending_move_exists st id captured r :
  Inv st -> In (id, captured) (timers st) ->
  captured = board (session st)
  /\ xIsNext (session st) = false
  /\ canPlay (session st) = true
  /\ exists idx, computeAIMove captured aiMark X r = Some idx
                 /\ isEmpty captured idx.
Proof.
  intros (_ & Hact & Hok) Hin.
  destruct (Hok id captured Hin) as (_ & -> & Harms & _).
  apply aiEffectArms_true in Harms. destruct Harms as (Hg & Hw & _ & Hx).
  split; [reflexivity|]. split; [exact Hx|].
  split; [unfold canPlay; now rewrite Hg, Hw|].
  destruct (computeAIMove_available (board (session st)) aiMark X r)
    as [[Hnil _] | (idx & R & Hidx)].
  - exfalso. rewrite Hg in Hact. symmetry in Hact.
    apply negb_true_iff in Hact. unfold roundOver, movesLeft in Hact.
    rewrite Hnil in Hact. rewrite orb_true_r in Hact. discriminate.
  - exists idx. split; [exact R | now apply In_emptyIndices].
Qed.


(** A pending timeout that fires in a state satisfying the invariant
    makes the advisor's move on the cell [computeAIMove] chose. *)
Lemma timeout_step st id captured r :
  Inv st -> lookupTimer id (timers st) = Some captured ->
  exists idx,
    computeAIMove (board (session st)) aiMark X r = Some idx
    /\ isEmpty (board (session st)) idx
    /\ canPlay (session st) = true
    /\ xIsNext (session st) = false
    /\ session (step st (Timeout id r)) = afterStatus (moved (session st) idx).
Proof.
  intros HI El. pose proof HI as ((Hd1 & _) & _ & _).
  cbn [step]. rewrite El. apply lookupTimer_In in El.
  destruct (pending_move_exists st id captured r HI El)
    as (-> & Hx & Hplay & idx & R & Hidx).
  exists idx. unfold aiTimeout. rewrite R.
  pose proof Hidx as Hnull. unfold isEmpty in Hnull. rewrite Hnull.
  cbn [cell_eqb]. repeat split; auto.
  set (st0 := mkState _ _ _ _ (clearTimeout id (timers st)) _).
  assert (E : applyUpdates (session st0)
                [setBoard (array_set (board (session st)) idx (Mk aiMark));
                 setXIsNext true]
              = moved (session st0) idx).
  { unfold moved, currentPlayer, st0. cbn [session]. now rewrite Hx. }
  cbn [dispatch]. rewrite E. now apply (settle_moved st0 idx).
Qed.

(** The three things an event can do to the session of a state that
    satisfies the invariant: nothing at all; a move on a free cell [i]
    followed by the status effect; a reset, followed or not by the status
    effect. *)
Lemma step_cases st e :
  Inv st ->
  step st e = st
  \/ (exists i,
        (e = Click i \/ isEmpty (board (session st)) i)
        /\ canPlay (session st) = true
        /\ truthy (get (board (session st)) i) = false
        /\ session (step st e) = afterStatus (moved (session st) i))
  \/ (isReset e = true
      /\ (session (step st e) = applyUpdates (session st) (resetUpdates e)
          \/ session (step st e)
             = afterStatus (applyUpdates (session st) (resetUpdates e)))).
Proof.
  intros HI. pose proof HI as ((Hd1 & _) & _ & _).
  assert (Hreset : forall ups, ups <> [] ->
            session (dispatch st ups) = applyUpdates (session st) ups
            \/ session (dispatch st ups) = afterStatus (applyUpdates (session st) ups)).
  { intros [|u ups] Hne; [congruence|].
    change (dispatch st (u :: ups))
      with (settle renders (withSession st (applyUpdates (session st) (u :: ups)))).
    rewrite settle_session. destruct (statusRuns _); auto. }
  destruct e as [i | | | m | id r]; cbn [step].
  - unfold handleClick.
    destruct (negb (canPlay (session st))) eqn:Hplay; [now left|].
    destruct (truthy (get (board (session st)) i)) eqn:Hocc; [now left|].
    destruct (Mode_eqb (mode (session st)) HUMAN_AI && negb (xIsNext (session st)));
      [now left|].
    right. left. exists i. apply negb_false_iff in Hplay.
    repeat split; auto. now apply settle_moved.
  - right. right. split; [reflexivity|]. now apply Hreset.
  - right. right. split; [reflexivity|]. now apply Hreset.
  - right. right. split; [reflexivity|]. now apply Hreset.
  - destruct (lookupTimer id (timers st)) as [captured|] eqn:El; [|now left].
    destruct (timeout_step st id captured r HI El)
      as (idx & _ & Hidx & Hplay & _ & E).
    right. left. exists idx. rewrite <- E. cbn [step]. rewrite El.
    pose proof Hidx as Hnull. unfold isEmpty in Hnull.
    repeat split; auto. now rewrite Hnull.
Qed.

Lemma moved_fields s i :
  board (moved s i) = array_set (board s) i (Mk (currentPlayer s))
  /\ xIsNext (moved s i) = negb (xIsNext s)
  /\ scores (moved s i) = scores s
  /\ gameActive (moved s i) = gameActive s
  /\ mode (moved s i) = mode s.
Proof. unfold moved. cbn. auto. Qed.

Lemma resetUpdates_fields s e :
  isReset e = true ->
  let s1 := applyUpdates s (resetUpdates e) in
  board s1 = emptyBoard
  /\ xIsNext s1 = true
  /\ gameActive s1 = true
  /\ statusMessage s1 = "New round. Turn: X"%string
  /\ mode s1 = match e with ModeChange m => m | _ => mode s end
  /\ scores s1 = match e with NewGame => mkScores 0 0 0 | _ => scores s end.
Proof.
  destruct e; try discriminate; intros _; cbn; repeat split; auto.
Qed.

Lemma reset_dispatch st e :
  isReset e = true ->
  step st e
  = settle renders (withSession st (applyUpdates (session st) (resetUpdates e))).
Proof. destruct e; try discriminate; reflexivity. Qed.

(** The session after a reset, whether or not the status effect ran. *)
Lemma reset_outcome st e :
  isReset e = true ->
  let s' := session (step st e) in
  board s' = emptyBoard
  /\ xIsNext s' = true
  /\ gameActive s' = true
  /\ mode s' = match e with ModeChange m => m | _ => mode (session st) end
  /\ scores s'
     = match e with NewGame => mkScores 0 0 0 | _ => scores (session st) end.
Proof.
  intros He s'. subst s'. rewrite (reset_dispatch st e He).
  destruct (resetUpdates_fields (session st) e He)
    as (Hb & Hx & Hg & _ & Hm & Hs). cbv zeta in *.
  destruct (settle_emptyBoard
              (withSession st (applyUpdates (session st) (resetUpdates e))) Hb)
    as (Hb' & Hx' & Hg' & Hm' & Hs').
  cbn [session withSession] in *.
  rewrite Hb', Hx', Hg', Hm', Hs', Hx, Hg, Hm, Hs. auto.
Qed.

Lemma reachable_run es : forall st, reachable st -> reachable (run st es).
Proof.
  induction es as [|e es IH]; intros st H; [exact H|].
  apply (IH (step st e)). now apply reach_step.
Qed.

(* ================================================================== *)
(** ** New game and change of mode *)

(** [X7] "New Game" ([startNewGame], that is [restartGame(true)]) leaves
    an empty board, [X] as the active mark, an active round and the three
    score counters at zero, and keeps the mode. *)
Theorem startNewGame_resets_scores (st : State) :
  let s' := session (step st NewGame) in
  board s' = emptyBoard
  /\ currentPlayer s' = X
  /\ gameActive s' = true
  /\ scores s' = mkScores 0 0 0
  /\ mode s' = mode (session st).
Proof.
  destruct (reset_outcome st NewGame eq_refl) as (Hb & Hx & Hg & Hm & Hs).
  cbv zeta in *. unfold currentPlayer. rewrite Hx. auto.
Qed.

(** [X8] A click on a mode button ([handleModeChange]) stores the new
    mode and starts a fresh round: empty board, [X] to move, round active;
    the score counters are kept. *)
Theorem handleModeChange_restarts_round (st : State) (m : Mode) :
  let s' := session (step st (ModeChange m)) in
  mode s' = m
  /\ board s' = emptyBoard
  /\ currentPlayer s' = X
  /\ gameActive s' = true
  /\ scores s' = scores (session st).
Proof.
  destruct (reset_outcome st (ModeChange m) eq_refl) as (Hb & Hx & Hg & Hm & Hs).
  cbv zeta in *. unfold currentPlayer. rewrite Hx. auto.
Qed.

(* ================================================================== *)
(** ** Scores *)




(* ================================================================== *)
(** ** The advisor's delayed move *)



(* ================================================================== *)
(** ** Exactly one move of the advisor is pending on its turn *)

Lemma aiEffectArms_iff s :
  aiEffectArms s = true
  <-> gameActive s = true /\ truthy (winnerOf s) = false
      /\ mode s = HUMAN_AI /\ xIsNext s = false.
Proof.
  split; [apply aiEffectArms_true|].
  intros (Hg & Hw & Hm & Hx). unfold aiEffectArms. now rewrite Hg, Hw, Hm, Hx.
Qed.

(** After the renders that follow a new board, a timeout is pending
    whenever the advisor effect asks for one. *)
Lemma settle_scheduled st :
  owned st -> aiRuns st = true -> scheduled (settle renders st).
Proof.
  intros Hown Hai. unfold scheduled, renders.
  destruct (statusRuns st) eqn:Hruns.
  - rewrite settle_loud by exact Hruns.
    set (s := session st).
    set (st2 := withSession (fst (commit st)) (afterStatus s)).
    destruct (commit_fields st) as (_ & Hc1 & Ht1 & _).
    destruct (commit_fields st2) as (Hs2 & _ & Ht2 & _).
    rewrite Hs2, Ht2. change (session st2) with (afterStatus s).
    destruct (roundOver s) eqn:Hover.
    + destruct (afterStatus_over s Hover) as (_ & Harms). congruence.
    + destruct (afterStatus_open s Hover) as (_ & Hd & Harms).
      assert (Hskip : aiPhase st2 = st2).
      { unfold aiPhase, aiRuns, st2, withSession, commit.
        cbn [aiDeps session fst depsChanged]. fold s.
        now rewrite Hd, AiDeps_eqb_refl. }
      rewrite Hskip, Harms. change (timers st2) with (timers (fst (commit st))).
      rewrite Ht1. destruct (afterStatus_frame s) as (_ & Hb & _). rewrite Hb.
      intros Ha.
      destruct (aiPhase_runs st Hown Hai) as [(_ & Ht & _) | (Hno & _)];
        [eauto | fold s in Hno; congruence].
  - rewrite settle_quiet by exact Hruns.
    destruct (commit_fields st) as (Hs1 & _ & Ht1 & _).
    rewrite Hs1, Ht1. intros Ha.
    destruct (aiPhase_runs st Hown Hai) as [(_ & Ht & _) | (Hno & _)];
      [eauto | congruence].
Qed.

Lemma scheduled_dispatch st ups :
  Inv st -> scheduled st ->
  (ups <> [] -> boardId (applyUpdates (session st) ups) = S (boardId (session st))) ->
  scheduled (dispatch st ups).
Proof.
  intros ((_ & Hd) & _ & Hok) Hsch Hid.
  destruct ups as [|u ups]; [exact Hsch|].
  change (dispatch st (u :: ups))
    with (settle renders (withSession st (applyUpdates (session st) (u :: ups)))).
  apply settle_scheduled.
  - intros id b Hin. now destruct (Hok id b Hin).
  - apply aiRuns_new_board; [exact Hd | apply Hid; discriminate].
Qed.

Lemma scheduled_step st e : Inv st -> scheduled st -> scheduled (step st e).
Proof.
  intros HI Hsch. destruct e as [i | | | m | id r]; cbn [step].
  - apply scheduled_dispatch; auto. unfold handleClick.
    destruct (negb _); [congruence|]. destruct (truthy _); [congruence|].
    destruct (_ && _); [congruence | reflexivity].
  - apply scheduled_dispatch; auto.
  - apply scheduled_dispatch; auto.
  - apply scheduled_dispatch; auto.
  - destruct (lookupTimer id (timers st)) as [captured|] eqn:El; [|exact Hsch].
    pose proof (lookupTimer_In _ _ _ El) as Hin.
    destruct (pending_move_exists st id captured r HI Hin)
      as (-> & _ & _ & idx & R & Hidx).
    unfold aiTimeout. rewrite R. unfold isEmpty in Hidx. rewrite Hidx.
    cbn [cell_eqb].
    set (st0 := mkState _ _ _ _ (clearTimeout id (timers st)) _).
    destruct HI as ((_ & Hd) & _ & Hok).
    change (scheduled (settle renders (withSession st0
              (applyUpdates (session st0)
                 [setBoard (array_set (board (session st)) idx (Mk aiMark));
                  setXIsNext true])))).
    apply settle_scheduled.
    + intros k b Hk. apply clearTimeout_In in Hk. now destruct (Hok k b (proj1 Hk)).
    + now apply aiRuns_new_board.
Qed.

Lemma reachable_scheduled st : reachable st -> scheduled st.
Proof.
  induction 1 as [|st e Hreach IH].
  - intros H. vm_compute in H. discriminate.
  - apply scheduled_step; [now apply reachable_Inv | exact IH].
Qed.

(** [X11] In every reachable state a move of the advisor is pending
    exactly when the round is active without a winner, the mode is the one
    against the advisor and it is the turn of [O]; there is then one
    pending timeout, and its callback closed over the current board. *)
Theorem advisor_move_pending_iff_its_turn (st : State) :
  reachable st ->
  let s := session st in
  let advisorTurn :=
    gameActive s = true /\ truthy (winnerOf s) = false
    /\ mode s = HUMAN_AI /\ xIsNext s = false in
  (advisorTurn -> exists id, timers st = [(id, board s)])
  /\ (~ advisorTurn -> timers st = []).
Proof.
  intros Hreach s advisorTurn. subst s advisorTurn.
  pose proof (reachable_Inv st Hreach) as (_ & _ & Hok).
  pose proof (reachable_scheduled st Hreach) as Hsch.
  split.
  - intros H. apply Hsch. now apply aiEffectArms_iff.
  - intros H. destruct (timers st) as [|[k b] rest] eqn:Et; [reflexivity|].
    exfalso. apply H. apply aiEffectArms_iff.
    assert (Hk : In (k, b) (timers st)) by (rewrite Et; now left).
    now destruct (Hok k b Hk) as (_ & _ & Harms & _).
Qed.

Lemma advisor_move_pending_iff_its_turn_witness :
  exists id, timers advisorToMove = [(id, board (session advisorToMove))].
Proof.
  refine (proj1 (advisor_move_pending_iff_its_turn advisorToMove _) _).
  - apply reachable_run, reach_mount.
  - vm_compute. auto.
Defined.

(* ================================================================== *)
(** ** Marks on the board *)

Lemma countMark_array_set m m' : forall i b,
  truthy (get b i) = false ->
  countMark m (array_set b i (Mk m'))
  = countMark m b + (if mark_eqb m m' then 1 else 0).
Proof.
  unfold countMark.
  induction i as [|i IH]; intros [|c rest] Hfree.
  - cbn. now destruct (mark_eqb m m').
  - cbn in Hfree. destruct c; try discriminate; cbn;
      destruct (mark_eqb m m'); cbn; lia.
  - cbn [array_set filter cell_eqb]. rewrite (IH []) by now rewrite get_nil.
    reflexivity.
  - change (truthy (get rest i) = false) in Hfree.
    cbn [array_set filter]. specialize (IH rest Hfree).
    destruct (cell_eqb (Mk m) c); cbn [length]; lia.
Qed.

Lemma moved_after s i :
  board (afterStatus (moved s i)) = array_set (board s) i (Mk (currentPlayer s))
  /\ xIsNext (afterStatus (moved s i)) = negb (xIsNext s).
Proof.
  destruct (afterStatus_frame (moved s i)) as (_ & Hb & _ & Hx).
  destruct (moved_fields s i) as (Hb1 & Hx1 & _).
  now rewrite Hb, Hx, Hb1, Hx1.
Qed.

(** [X12] In every reachable state [X] has as many marks on the board as
    [O] when it is the turn of [X], and one more when it is the turn of
    [O]: the two marks are placed in turn, [X] first. *)
Theorem marks_are_placed_in_turn (st : State) :
  reachable st ->
  countMark X (board (session st))
  = countMark O (board (session st)) + (if xIsNext (session st) then 0 else 1).
Proof.
  induction 1 as [|st e Hreach IH]; [reflexivity|].
  pose proof (reachable_Inv st Hreach) as HI.
  destruct (step_cases st e HI)
    as [E | [(i & _ & _ & Hfree & E) | (He & _)]].
  - now rewrite E.
  - rewrite E. destruct (moved_after (session st) i) as (-> & ->).
    rewrite !countMark_array_set by exact Hfree.
    unfold currentPlayer. destruct (xIsNext (session st)); cbn; lia.
  - destruct (reset_outcome st e He) as (Hb & Hx & _). cbv zeta in *.
    now rewrite Hb, Hx.
Qed.

Lemma marks_are_placed_in_turn_witness :
  countMark X (board (session advisorToMove))
  = countMark O (board (session advisorToMove))
    + (if xIsNext (session advisorToMove) then 0 else 1).
Proof.
  apply marks_are_placed_in_turn. apply reachable_run, reach_mount.
Defined.

(** [X13] An event other than a reset never removes or replaces a mark:
    a cell that holds a mark in a reachable state holds the same mark
    after a click or a timeout. *)
Theorem marks_stay_until_reset (st : State) (e : event) (j : nat) (m : mark) :
  reachable st ->
  isReset e = false ->
  get (board (session st)) j = Mk m ->
  get (board (session (step st e))) j = Mk m.
Proof.
  intros Hreach He Hj. pose proof (reachable_Inv st Hreach) as HI.
  destruct (step_cases st e HI)
    as [E | [(i & _ & _ & Hfree & E) | (He' & _)]].
  - now rewrite E.
  - rewrite E. destruct (moved_after (session st) i) as (-> & _).
    rewrite get_array_set_ne; [exact Hj|].
    intros ->. rewrite Hj in Hfree. discriminate.
  - congruence.
Qed.

Lemma marks_stay_until_reset_witness :
  get (board (session (step advisorToMove (Timeout 0 half)))) 0 = Mk X.
Proof.
  apply (marks_stay_until_reset advisorToMove (Timeout 0 half) 0 X).
  - apply reachable_run, reach_mount.
  - reflexivity.
  - vm_compute. reflexivity.
Defined.

Lemma array_set_length (b : Board) v : forall i,
  i < length b -> length (array_set b i v) = length b.
Proof.
  induction b as [|c rest IH]; intros [|i] H; cbn in *; try lia.
  rewrite IH; lia.
Qed.

Lemma array_set_Forall (P : cell -> Prop) (b : Board) v : forall i,
  i < length b -> P v -> Forall P b -> Forall P (array_set b i v).
Proof.
  induction b as [|c rest IH]; intros [|i] H Hv Hall; cbn in *; try lia.
  - inversion Hall; subst. now constructor.
  - inversion Hall; subst. constructor; [assumption|]. apply IH; auto. lia.
Qed.

Lemma reachableUI_reachable st : reachableUI st -> reachable st.
Proof. induction 1; [apply reach_mount | now apply reach_step]. Qed.

(** [X14] As long as every click comes from a button of the grid (the
    index of a cell of the array), the board keeps nine cells and each of
    them holds [null] or a mark. *)
Theorem board_keeps_nine_cells (st : State) :
  reachableUI st ->
  length (board (session st)) = 9
  /\ Forall (fun c => c <> Undefined) (board (session st)).
Proof.
  induction 1 as [|st e Hui [IHlen IHall] Hoff].
  - split; [reflexivity|]. vm_compute. repeat constructor; discriminate.
  - pose proof (reachable_Inv st (reachableUI_reachable st Hui)) as HI.
    destruct (step_cases st e HI)
      as [E | [(i & Hi & _ & _ & E) | (He & _)]].
    + rewrite E. auto.
    + rewrite E. destruct (moved_after (session st) i) as (-> & _).
      assert (Hlt : i < length (board (session st))).
      { destruct Hi as [-> | Hi]; [exact Hoff | now apply isEmpty_lt]. }
      split; [now rewrite array_set_length|].
      apply array_set_Forall; auto. discriminate.
    + destruct (reset_outcome st e He) as (Hb & _). cbv zeta in Hb.
      rewrite Hb. split; [reflexivity|]. repeat constructor; discriminate.
Qed.

Lemma board_keeps_nine_cells_witness :
  length (board (session (step mount (Click 4)))) = 9
  /\ Forall (fun c => c <> Undefined) (board (session (step mount (Click 4)))).
Proof.
  apply board_keeps_nine_cells.
  apply ui_step; [apply ui_mount|]. vm_compute. repeat constructor.
Defined.

(* ================================================================== *)
(** ** The status line *)

Lemma afterStatus_statusMessage s :
  statusMessage (afterStatus s) = expectedStatus s.
Proof.
  unfold afterStatus, statusEffect, expectedStatus.
  destruct (winnerOf s); try destruct (movesLeft s =? 0); reflexivity.
Qed.

Lemma expectedStatus_afterStatus s :
  expectedStatus (afterStatus s) = expectedStatus s.
Proof.
  pose proof (statusDepsOf_afterStatus s) as H. unfold statusDepsOf in H.
  injection H as Hw Hm Hp. unfold expectedStatus. now rewrite Hw, Hm, Hp.
Qed.

(** [X15] In every reachable state the status line agrees with the
    board: it names the winner, or says "Draw!" on a full board, or names
    the mark to move; the one exception is the text "New round. Turn: X"
    of [restartGame], which stays only over an empty board with [X] to
    move. *)
Theorem status_agrees_with_board (st : State) :
  reachable st ->
  let s := session st in
  statusMessage s = expectedStatus s
  \/ (statusMessage s = "New round. Turn: X"%string
      /\ board s = emptyBoard /\ xIsNext s = true).
Proof.
  induction 1 as [|st e Hreach IH]; [left; reflexivity|].
  cbv zeta in *.
  pose proof (reachable_Inv st Hreach) as HI.
  destruct (step_cases st e HI)
    as [E | [(i & _ & _ & _ & E) | (He & [E | E])]]; rewrite E.
  - exact IH.
  - left. now rewrite afterStatus_statusMessage, expectedStatus_afterStatus.
  - right. destruct (resetUpdates_fields (session st) e He)
      as (Hb & Hx & _ & Hm & _). auto.
  - left. now rewrite afterStatus_statusMessage, expectedStatus_afterStatus.
Qed.

Lemma status_agrees_with_board_witness :
  statusMessage (session beforeWin) = expectedStatus (session beforeWin)
  \/ (statusMessage (session beforeWin) = "New round. Turn: X"%string
      /\ board (session beforeWin) = emptyBoard
      /\ xIsNext (session beforeWin) = true).
Proof.
  apply (status_agrees_with_board beforeWin).
  apply reachable_run, reach_mount.
Defined.

(** [X16] After "Restart Round" in a reachable state the status reads
    "New round. Turn: X" only when, before the click, the board had no
    winner and nine empty cells and it was the turn of [X]; in every other
    case the status effect runs after the restart and the status reads
    "Turn: X". *)
Theorem restartRound_status_text (st : State) :
  reachable st ->
  let s := session st in
  let fresh := winnerOf s = Null /\ movesLeft s = 9 /\ xIsNext s = true in
  let status' := statusMessage (session (step st RestartRound)) in
  (fresh -> status' = "New round. Turn: X"%string)
  /\ (~ fresh -> status' = "Turn: X"%string).
Proof.
  intros Hreach s fresh status'. subst s fresh status'.
  pose proof (reachable_Inv st Hreach) as ((Hd & _) & _).
  rewrite (reset_dispatch st RestartRound eq_refl), settle_session.
  set (s1 := applyUpdates (session st) (resetUpdates RestartRound)).
  assert (Hruns : statusRuns (withSession st s1)
                  = negb (StatusDeps_eqb (statusDepsOf (session st)) (Null, 9, X))).
  { unfold statusRuns, withSession. cbn [statusDeps session]. now rewrite Hd. }
  rewrite Hruns. unfold statusDepsOf, StatusDeps_eqb, currentPlayer.
  split.
  - intros (-> & -> & ->). reflexivity.
  - intros Hno.
    assert (E : cell_eqb (winnerOf (session st)) Null
                && (movesLeft (session st) =? 9)
                && mark_eqb (if xIsNext (session st) then X else O) X = false).
    { destruct (cell_eqb _ Null) eqn:Ew; [|reflexivity].
      destruct (movesLeft (session st) =? 9) eqn:Em; [|reflexivity].
      destruct (xIsNext (session st)) eqn:Ex; [|reflexivity].
      exfalso. apply Hno. apply cell_eqb_eq in Ew. apply Nat.eqb_eq in Em. auto. }
    rewrite E. cbn [negb]. now rewrite afterStatus_statusMessage.
Qed.

Lemma restartRound_status_text_witness :
  statusMessage (session (step beforeWin RestartRound)) = "Turn: X"%string.
Proof.
  refine (proj2 (restartRound_status_text beforeWin _) _).
  - apply reachable_run, reach_mount.
  - vm_compute. intros (_ & H & _). discriminate H.
Defined.

(* ================================================================== *)
(** ** Rendering comes to rest *)

(** [X17] The effects cannot keep the component rendering: from any
    state, after at most two renders no effect asks for an update (the
    status effect writes nothing it depends on), further renders change
    nothing, and every reachable state is such a state of rest. *)
Theorem rendering_comes_to_rest :
  (forall st, commit (settle renders st) = (settle renders st, []))
  /\ (forall st n, settle (2 + n) st = settle renders st)
  /\ (forall st, reachable st -> commit st = (st, [])).
Proof.
  split; [exact settle_stable|]. split; [intros; apply settle_fuel|].
  intros st Hreach. apply committed_stable.
  now destruct (reachable_Inv st Hreach) as (Hc & _).
Qed.

(* ================================================================== *)
(** ** A finished round *)

(** [X18] Once the round is over in a reachable state, only a reset
    changes anything: every click on a cell is ignored and no timeout is
    left that could fire. *)
Theorem finished_round_is_frozen (st : State) (e : event) :
  reachable st ->
  gameActive (session st) = false ->
  isReset e = false ->
  step st e = st /\ timers st = [].
Proof.
  intros Hreach Hover He.
  pose proof (reachable_Inv st Hreach) as (_ & _ & Hok).
  assert (Hnone : timers st = []).
  { destruct (timers st) as [|[k b] rest] eqn:Et; [reflexivity|].
    assert (Hk : In (k, b) (timers st)) by (rewrite Et; now left).
    destruct (Hok k b Hk) as (_ & _ & Harms & _).
    apply aiEffectArms_true in Harms. destruct Harms as (Hg & _). congruence. }
  split; [|exact Hnone].
  destruct e as [i | | | m | id r]; try discriminate; cbn [step].
  - unfold handleClick, canPlay. now rewrite Hover.
  - now rewrite Hnone.
Qed.

Lemma finished_round_is_frozen_witness :
  step (step beforeWin (Click 2)) (Click 5) = step beforeWin (Click 2)
  /\ timers (step beforeWin (Click 2)) = [].
Proof.
  apply (finished_round_is_frozen (step beforeWin (Click 2)) (Click 5)).
  - apply reach_step, reachable_run, reach_mount.
  - vm_compute. reflexivity.
  - reflexivity.
Defined.

(* ================================================================== *)
(** ** Sample runs *)

Example advisor_takes_center :
  computeAIMove_traced (array_set emptyBoard 0 (Mk X)) O X half = (Center, Some 4).
Proof. reflexivity. Qed.

Example advisor_draws_a_corner :
  let b := array_set emptyBoard 4 (Mk X) in
  computeAIMove_traced b O X half = (Corner, Some 6)
  /\ computeAIMove_traced b O X almostOne = (Corner, Some 8).
Proof. split; reflexivity. Qed.

Example advisor_on_decided_board :
  computeAIMove_traced decided_board O X half = (Block, Some 3).
Proof. reflexivity. Qed.

Example run_x_wins :
  let s := session (run mount [Click 0; Click 3; Click 1; Click 4; Click 2]) in
  board s = [Mk X; Mk X; Mk X;  Mk O; Mk O; Null;  Null; Null; Null]
  /\ statusMessage s = "Winner: X"%string
  /\ gameActive s = false
  /\ scores s = mkScores 1 0 0.
Proof. vm_compute. auto. Qed.

Example run_draw :
  let s := session (run mount
             [Click 0; Click 1; Click 2; Click 4; Click 3;
              Click 5; Click 7; Click 6; Click 8]) in
  statusMessage s = "Draw!"%string
  /\ gameActive s = false
  /\ scores s = mkScores 0 0 1.
Proof. vm_compute. auto. Qed.

Example run_advisor_takes_center :
  let st := run mount [ModeChange HUMAN_AI; Click 0] in
  timers st = [(0, array_set emptyBoard 0 (Mk X))]
  /\ statusMessage (session st) = "Turn: O"%string
  /\ step st (Click 1) = st
  /\ board (session (step st (Timeout 0 half)))
     = [Mk X; Null; Null;  Null; Mk O; Null;  Null; Null; Null]
  /\ timers (step st (Timeout 0 half)) = []
  /\ timers (step st RestartRound) = [].
Proof. vm_compute. auto 10. Qed.
